(** * PoSe-Path, [src/utils.py]: the edge-processing pipeline

    A shallow embedding of [remove_bidirection], [to_bidirection],
    [get_range_list], [process_edges] and [get_edge_index_from_coo],
    together with the properties of these functions that the
    specification states.

    Conventions.  Node identifiers and type labels are integers ([Z]);
    column positions, sizes and offsets are naturals.  An edge tensor of
    shape (2, m) is a record of its two rows.  Python exceptions are the
    [Raise] results of [result].  The train fraction [p] is a rational.
    The process-wide random generator that [np.random.binomial] draws
    from is an explicit state, threaded through the loop over the types. *)

From stdpp Require Import base numbers option list sorting gmap.
From Stdlib Require Import QArith.

Local Open Scope nat_scope.

(** ** Exceptions and results *)

Inductive exn : Set :=
| ValueError    (* numpy: parameter of a distribution out of its domain *)
| IndexError    (* torch, numpy: index out of range *)
| RuntimeError  (* torch: [torch.cat] of an empty list of tensors *)
| OverflowError. (* numpy: an index that does not fit the index type *)

Inductive result (A : Type) : Type :=
| Ok (a : A)
| Raise (e : exn).
Arguments Ok {A} a.
Arguments Raise {A} e.

Definition rbind {A B} (r : result A) (k : A → result B) : result B :=
  match r with
  | Ok a => k a
  | Raise e => Raise e
  end.

Notation "x ←r e ; k" := (rbind e (λ x, k))
  (at level 100, e at next level, k at level 200, right associativity).

(** ** Edge tensors *)

Record edges : Set := Edges { row0 : list Z; row1 : list Z }.

(** [E.shape[1]] *)
Definition ncols (E : edges) : nat := length (row0 E).

(** The two rows of a tensor of shape (2, m) have the same length. *)
Definition well_shaped (E : edges) : Prop := length (row0 E) = length (row1 E).

(** The columns of a tensor, left to right. *)
Definition columns (E : edges) : list (Z * Z) := zip (row0 E) (row1 E).

(** [E[:, s:e]] *)
Definition slice {A} (s e : nat) (l : list A) : list A := take (e - s) (drop s l).
Definition slice_cols (s e : nat) (E : edges) : edges :=
  Edges (slice s e (row0 E)) (slice s e (row1 E)).

(** [tmp[0, :] = r] and [tmp[1, :] = r] *)
Definition set_row0 (E : edges) (r : list Z) : edges := Edges r (row1 E).
Definition set_row1 (E : edges) (r : list Z) : edges := Edges (row0 E) r.

(** [a > b], elementwise *)
Definition gt_mask (a b : list Z) : list bool := zip_with Z.gtb a b.

(** Positions of the entries that satisfy [f], in increasing order,
    counted from [k]. *)
Fixpoint indices_where {A} (f : A → bool) (k : nat) (l : list A) : list nat :=
  match l with
  | [] => []
  | x :: l' =>
      if f x then k :: indices_where f (S k) l' else indices_where f (S k) l'
  end.

(** [mask.nonzero().view(-1)] on a boolean torch mask *)
Definition torch_nonzero (mask : list bool) : list nat := indices_where id 0 mask.

(** [mask.nonzero()[0]] on a numpy integer array *)
Definition np_nonzero (mask : list Z) : list nat :=
  indices_where (λ b, negb (b =? 0)%Z) 0 mask.

(** [l[idx]] for an index sequence: every index has to be in range. *)
Fixpoint index_select {A} (l : list A) (idx : list nat) : result (list A) :=
  match idx with
  | [] => Ok []
  | j :: idx' =>
      match l !! j with
      | None => Raise IndexError
      | Some x => r ←r index_select l idx'; Ok (x :: r)
      end
  end.

(** [E[:, idx]] *)
Definition index_cols (E : edges) (idx : list nat) : result edges :=
  r0 ←r index_select (row0 E) idx;
  r1 ←r index_select (row1 E) idx;
  Ok (Edges r0 r1).

(** Concatenation along the column axis; [torch.cat] refuses an empty
    list of tensors. *)
Definition cat_cols (l : list edges) : edges :=
  Edges (concat (row0 <$> l)) (concat (row1 <$> l)).

Definition torch_cat_cols (l : list edges) : result edges :=
  match l with
  | [] => Raise RuntimeError
  | _ => Ok (cat_cols l)
  end.

Definition torch_cat (l : list (list Z)) : result (list Z) :=
  match l with
  | [] => Raise RuntimeError
  | _ => Ok (concat l)
  end.

(** ** [remove_bidirection] (lines 10-17) *)

Definition remove_bidirection (edge_index : edges) (edge_type : option (list Z))
  : result (edges * option (list Z)) :=
  let mask := gt_mask (row0 edge_index) (row1 edge_index) in
  let keep_set := torch_nonzero mask in
  match edge_type with
  | None =>
      kept ←r index_cols edge_index keep_set;
      Ok (kept, None)
  | Some et =>
      kept ←r index_cols edge_index keep_set;
      labels ←r index_select et keep_set;
      Ok (kept, Some labels)
  end.

(** ** [to_bidirection] (lines 20-26) *)

Definition to_bidirection (edge_index : edges) (edge_type : option (list Z))
  : edges * option (list Z) :=
  let tmp := edge_index in                          (* a clone: a value *)
  let tmp := set_row0 tmp (row1 edge_index) in
  let tmp := set_row1 tmp (row0 edge_index) in
  match edge_type with
  | None => (cat_cols [edge_index; tmp], None)
  | Some et => (cat_cols [edge_index; tmp], Some (concat [et; et]))
  end.

(** ** [to_bidirection] on a store of tensors (lines 20-24)

    Tensors live in a store and are named by their location; [clone] and
    [torch.cat] allocate, a row view reads the store when it is used, and
    a row assignment updates the tensor it is applied to. *)

Inductive rowid : Set := R0 | R1.

Definition read_row (h : gmap nat edges) (t : nat) (r : rowid) : option (list Z) :=
  T ← h !! t;
  Some (match r with R0 => row0 T | R1 => row1 T end).

Definition write_row (h : gmap nat edges) (t : nat) (r : rowid) (v : list Z)
  : option (gmap nat edges) :=
  T ← h !! t;
  Some (<[t := match r with R0 => set_row0 T v | R1 => set_row1 T v end]> h).

Definition to_bidirection_store (h : gmap nat edges) (edge_index : nat)
  : option (gmap nat edges * nat) :=
  T ← h !! edge_index;
  let tmp := fresh (dom h) in
  let h := <[tmp := T]> h in                     (* tmp = edge_index.clone() *)
  v ← read_row h edge_index R1;
  h ← write_row h tmp R0 v;                      (* tmp[0, :] = edge_index[1, :] *)
  v ← read_row h edge_index R0;
  h ← write_row h tmp R1 v;                      (* tmp[1, :] = edge_index[0, :] *)
  a ← h !! edge_index;
  b ← h !! tmp;
  let out := fresh (dom h) in
  Some (<[out := cat_cols [a; b]]> h, out).      (* torch.cat([edge_index, tmp], dim=1) *)

(** ** [get_range_list] (lines 29-35) *)

Definition get_range_list (edge_list : list edges) : list (nat * nat) :=
  fst (fold_left
         (λ '(tmp, s) i, (tmp ++ [(s, s + ncols i)], s + ncols i))
         edge_list ([], 0)).

(** ** The random source *)

(** The state of the generator: the uniform variates of [0, 1) it is
    still to deliver. *)
Definition rng : Type := nat → Q.

Definition valid_rng (g : rng) : Prop := ∀ k, (0 <= g k)%Q ∧ (g k < 1)%Q.

Definition advance (n : nat) (g : rng) : rng := λ k, g (n + k).

(** Computations that read the generator and may raise. *)
Definition M (A : Type) : Type := rng → result (A * rng).

Definition mret {A} (a : A) : M A := λ g, Ok (a, g).
Definition mbind {A B} (m : M A) (k : A → M B) : M B :=
  λ g, match m g with
       | Ok (a, g') => k a g'
       | Raise e => Raise e
       end.
Definition lift {A} (r : result A) : M A :=
  λ g, match r with
       | Ok a => Ok (a, g)
       | Raise e => Raise e
       end.

Notation "x ←m e ; k" := (mbind e (λ x, k))
  (at level 100, e at next level, k at level 200, right associativity).

(** One Bernoulli trial of success probability [p], from one uniform
    variate. *)
Definition bernoulli (p u : Q) : Z := if Qlt_le_dec u p then 1%Z else 0%Z.

Definition bernoulli_mask (p : Q) (size : nat) (g : rng) : list Z :=
  bernoulli p <$> (g <$> seq 0 size).

(** [np.random.binomial(1, p, size)]: numpy rejects a success
    probability outside [0, 1] with a ValueError before it draws. *)
Definition np_random_binomial1 (p : Q) (size : nat) : M (list Z) :=
  λ g, if Qlt_le_dec p 0 then Raise ValueError
       else if Qlt_le_dec 1 p then Raise ValueError
       else Ok (bernoulli_mask p size g, advance size g).

(** ** [process_edges] (lines 38-68) *)

Record acc : Set := Acc {
  train_list : list edges;
  test_list : list edges;
  train_label_list : list (list Z);
  test_label_list : list (list Z)
}.

(** [torch.ones(n, dtype=torch.long) * i] *)
Definition ones_times (n : nat) (i : nat) : list Z :=
  (λ o, o * Z.of_nat i)%Z <$> replicate n 1%Z.

(** The body of the loop over the types (lines 44-54), from position [i]. *)
Fixpoint split_loop (p : Q) (i : nat) (raw : list edges) (a : acc) : M acc :=
  match raw with
  | [] => mret a
  | idx :: rest =>
      train_mask ←m np_random_binomial1 p (ncols idx);
      let test_mask := (λ b, 1 - b)%Z <$> train_mask in
      let train_set := np_nonzero train_mask in
      let test_set := np_nonzero test_mask in
      train ←m lift (index_cols idx train_set);
      test ←m lift (index_cols idx test_set);
      split_loop p (S i) rest
        {| train_list := train_list a ++ [train];
           test_list := test_list a ++ [test];
           train_label_list :=
             train_label_list a ++ [ones_times (2 * length train_set) i];
           test_label_list :=
             test_label_list a ++ [ones_times (2 * length test_set) i] |}
  end.

Record split_output : Set := SplitOutput {
  train_edge_idx : edges;
  train_et : list Z;
  train_range : list (nat * nat);
  test_edge_idx : edges;
  test_et : list Z;
  test_range : list (nat * nat)
}.

Definition process_edges (raw_edge_list : list edges) (p : Q) : M split_output :=
  a ←m split_loop p 0 raw_edge_list (Acc [] [] [] []);
  let train_list := (λ idx, fst (to_bidirection idx None)) <$> train_list a in
  let test_list := (λ idx, fst (to_bidirection idx None)) <$> test_list a in
  let train_range := get_range_list train_list in
  let test_range := get_range_list test_list in
  train_edge_idx ←m lift (torch_cat_cols train_list);
  test_edge_idx ←m lift (torch_cat_cols test_list);
  train_et ←m lift (torch_cat (train_label_list a));
  test_et ←m lift (torch_cat (test_label_list a));
  mret (SplitOutput train_edge_idx train_et train_range
                    test_edge_idx test_et test_range).

(** ** [get_edge_index_from_coo] (lines 121-129) *)

(** A scipy coordinate matrix: [row[k]], [col[k]] locate stored entry [k];
    scipy keeps the two arrays at the same length. *)
Record coo_matrix : Set := Coo { row : list Z; col : list Z }.

(** [a[mask]] for a boolean numpy mask *)
Fixpoint mask_select {A} (l : list A) (mask : list bool) : list A :=
  match l, mask with
  | x :: l', b :: mask' =>
      if b then x :: mask_select l' mask' else mask_select l' mask'
  | _, _ => []
  end.

Definition get_edge_index_from_coo (mat : coo_matrix) (bidirection : bool) : edges :=
  if bidirection then
    let mask := gt_mask (row mat) (col mat) in
    let half := Edges (mask_select (row mat) mask) (mask_select (col mat) mask) in
    let full := cat_cols [half; Edges (row1 half) (row0 half)] in
    full
  else
    Edges (row mat) (col mat).

(** ** [get_indices_mask] (lines 114-118) *)

(** [np.isin(a, test)] on one row *)
Definition np_isin (a test : list Z) : list bool :=
  (λ x, bool_decide (x ∈ test)) <$> a.

(** [a.reshape(-1, d)] on the two rows of an array of shape (2, d): the
    shape is kept, but numpy cannot infer the unknown dimension when
    [d = 0] and raises a ValueError. *)
Definition reshape_rows {A} (d : nat) (rows : list A * list A)
  : result (list A * list A) :=
  if decide (d = 0) then Raise ValueError else Ok rows.

Definition get_indices_mask (indices : edges) (in_indices : list Z)
  : result (list bool) :=
  let d := ncols indices in
  isin ←r reshape_rows d (np_isin (row0 indices) in_indices,
                          np_isin (row1 indices) in_indices);
  let mask := zip_with andb isin.1 isin.2 in        (* isin.all(axis=0) *)
  Ok mask.

(** ** [dict_ep_to_nparray] (lines 105-111) *)

(** The array of shape (3, epoch): one row per metric. *)
Record metric_table : Set := MetricTable {
  prc_row : list Q;
  roc_row : list Q;
  ap_row : list Q
}.

(** The position that numpy gives to index [i] on an axis of length [n]:
    a negative index counts from the end.  An index outside [-n, n) is an
    IndexError, except that an integer from 2^63 to 2^64 - 1, which does
    not fit the signed index type, is an OverflowError. *)
Definition np_index (n : nat) (i : Z) : result nat :=
  if decide (0 ≤ i < Z.of_nat n)%Z then Ok (Z.to_nat i)
  else if decide (- Z.of_nat n ≤ i < 0)%Z then Ok (Z.to_nat (i + Z.of_nat n))
  else if decide (2 ^ 63 ≤ i < 2 ^ 64)%Z then Raise OverflowError
  else Raise IndexError.

(** [row[i] = v] *)
Definition np_setitem (row : list Q) (i : Z) (v : Q) : result (list Q) :=
  j ←r np_index (length row) i;
  Ok (<[j := v]> row).

(** The loop over the items of the dictionary, in insertion order. *)
Fixpoint fill_table (items : list (Z * (Q * Q * Q))) (out : metric_table)
  : result metric_table :=
  match items with
  | [] => Ok out
  | (ep, (prc, roc, ap)) :: rest =>
      r0 ←r np_setitem (prc_row out) ep prc;
      r1 ←r np_setitem (roc_row out) ep roc;
      r2 ←r np_setitem (ap_row out) ep ap;
      fill_table rest (MetricTable r0 r1 r2)
  end.

(** The dictionary is the list of its items in insertion order; numpy
    refuses a negative dimension with a ValueError. *)
Definition dict_ep_to_nparray (out_dict : list (Z * (Q * Q * Q))) (epoch : Z)
  : result metric_table :=
  if decide (epoch < 0)%Z then Raise ValueError
  else
    let zeros := replicate (Z.to_nat epoch) 0%Q in
    fill_table out_dict (MetricTable zeros zeros zeros).

(** ** [sparse_id] and [dense_id] (lines 71-86)

    The values of the two matrices are the floats 0.0 and 1.0, written
    here as the integers 0 and 1. *)

(** [[i for i in range(n)]] *)
Definition py_range (n : nat) : list Z := Z.of_nat <$> seq 0 n.

(** A sparse coordinate tensor: the (2, nnz) index tensor, the stored
    values and the shape. *)
Record sparse_tensor : Set := SparseTensor {
  sp_indices : edges;
  sp_values : list Z;
  sp_shape : nat * nat
}.

Definition sparse_id (n : nat) : sparse_tensor :=
  let idx := Edges (py_range n) (py_range n) in
  let val := (λ _, 1%Z) <$> py_range n in
  let shape := (n, n) in
  SparseTensor idx val shape.

(** Densification of coordinate data: the entry at [(r, c)] is the sum of
    the values stored at that position. *)
Fixpoint entry_sum (rows cols vals : list Z) (r c : Z) : Z :=
  match rows, cols, vals with
  | i :: rows', j :: cols', v :: vals' =>
      ((if decide (i = r ∧ j = c) then v else 0) + entry_sum rows' cols' vals' r c)%Z
  | _, _, _ => 0%Z
  end.

Definition todense (shape : nat * nat) (rows cols vals : list Z) : list (list Z) :=
  (λ r, (λ c, entry_sum rows cols vals r c) <$> py_range shape.2) <$> py_range shape.1.

(** [t.to_dense()] *)
Definition to_dense (t : sparse_tensor) : list (list Z) :=
  todense (sp_shape t) (row0 (sp_indices t)) (row1 (sp_indices t)) (sp_values t).

Definition dense_id (n : nat) : list (list Z) :=
  let idx := py_range n in
  let val := (λ _, 1%Z) <$> py_range n in
  todense (n, n) idx idx val.

(** * Vocabulary of the properties *)

(** What [index_select] returns when it returns. *)
Definition pick {A} (l : list A) (idx : list nat) : list A :=
  omap (λ j, l !! j) idx.

(** The total counterpart of [index_cols]. *)
Definition pick_cols (E : edges) (idx : list nat) : edges :=
  Edges (pick (row0 E) idx) (pick (row1 E) idx).

(** A column with its endpoints exchanged. *)
Definition swap (c : Z * Z) : Z * Z := (c.2, c.1).

(** Every column has its source strictly above its target. *)
Definition canonical (E : edges) : Prop :=
  Forall (λ c : Z * Z, (c.1 > c.2)%Z) (columns E).

(** A column as an unordered pair of endpoints. *)
Definition unordered (c : Z * Z) : Z * Z := (Z.min c.1 c.2, Z.max c.1 c.2).

(** [1 - train_mask] (line 46) *)
Definition compl_mask (m : list Z) : list Z := (λ b, 1 - b)%Z <$> m.

(** The masks that the successive calls of the sampler return, one per
    type, and the generator left after them. *)
Fixpoint drawn_masks (p : Q) (raw : list edges) (g : rng) : list (list Z) :=
  match raw with
  | [] => []
  | idx :: rest =>
      bernoulli_mask p (ncols idx) g :: drawn_masks p rest (advance (ncols idx) g)
  end.

Fixpoint rng_after (raw : list edges) (g : rng) : rng :=
  match raw with
  | [] => g
  | idx :: rest => rng_after rest (advance (ncols idx) g)
  end.

(** A mask of zeros and ones. *)
Definition binary (mask : list Z) : Prop := Forall (λ b, b = 0%Z ∨ b = 1%Z) mask.

(** The columns of [idx] that a mask sends to the train and to the test
    split, and the segments that they become. *)
Definition train_cols (idx : edges) (mask : list Z) : edges :=
  pick_cols idx (np_nonzero mask).
Definition test_cols (idx : edges) (mask : list Z) : edges :=
  pick_cols idx (np_nonzero (compl_mask mask)).
Definition train_segment (idx : edges) (mask : list Z) : edges :=
  (to_bidirection (train_cols idx mask) None).1.
Definition test_segment (idx : edges) (mask : list Z) : edges :=
  (to_bidirection (test_cols idx mask) None).1.
Definition train_labels (i : nat) (mask : list Z) : list Z :=
  ones_times (2 * length (np_nonzero mask)) i.
Definition test_labels (i : nat) (mask : list Z) : list Z :=
  ones_times (2 * length (np_nonzero (compl_mask mask))) i.

(** The value [process_edges] returns on the masks it drew. *)
Definition split_result (raw : list edges) (masks : list (list Z)) : split_output :=
  let trains := zip_with train_segment raw masks in
  let tests := zip_with test_segment raw masks in
  {| train_edge_idx := cat_cols trains;
     train_et := concat (imap train_labels masks);
     train_range := get_range_list trains;
     test_edge_idx := cat_cols tests;
     test_et := concat (imap test_labels masks);
     test_range := get_range_list tests |}.

(** The range table of [l] when the running offset starts at [s]. *)
Fixpoint ranges_from (s : nat) (l : list edges) : list (nat * nat) :=
  match l with
  | [] => []
  | E :: l' => (s, s + ncols E) :: ranges_from (s + ncols E) l'
  end.

(** The number of columns before segment [i]. *)
Definition offset (l : list edges) (i : nat) : nat := sum_list (ncols <$> take i l).


(** A generator that alternates between 1/4 and 3/4, and two types with
    three and two edges. *)
Definition example_rng : rng := λ k, if Nat.even k then (1 # 4)%Q else (3 # 4)%Q.

Definition example_raw : list edges :=
  [Edges [5; 7; 9]%Z [1; 2; 3]%Z; Edges [4; 4]%Z [0; 1]%Z].

(** Label lists that go with a list of segments: one list per segment,
    as long as the segment has columns, filled with the segment's
    position. *)
Definition labels_for (segments : list edges) (labels : list (list Z)) : Prop :=
  length labels = length segments ∧
  ∀ i seg, segments !! i = Some seg → labels !! i = Some (ones_times (ncols seg) i).

(** From column [s] on, [flat] holds the columns of [idx] listed in
    [set], in the order of [set], and right after them the same columns
    with their endpoints swapped, in the same order. *)
Definition ordered_segment (idx : edges) (set : list nat) (s : nat) (flat : edges)
  : Prop :=
  ∀ r j, set !! r = Some j →
    ∃ u v, columns idx !! j = Some (u, v) ∧
           columns flat !! (s + r) = Some (u, v) ∧
           columns flat !! (s + length set + r) = Some (v, u).

(** The bidirectional forms of all the input edge lists. *)
Definition bidirected (raw : list edges) : list edges :=
  (λ idx, (to_bidirection idx None).1) <$> raw.

(** A split that received every column of every type. *)
Definition holds_all (raw : list edges)
    (flat : edges) (labels : list Z) (ranges : list (nat * nat)) : Prop :=
  flat = cat_cols (bidirected raw) ∧
  labels = concat (imap (λ i idx, ones_times (2 * ncols idx) i) raw) ∧
  ranges = get_range_list (bidirected raw).

(** A split that received nothing: every type has a segment of size 0. *)
Definition holds_none (raw : list edges)
    (flat : edges) (labels : list Z) (ranges : list (nat * nat)) : Prop :=
  flat = Edges [] [] ∧ labels = [] ∧ ranges = replicate (length raw) (0, 0).

(** The two index arrays of a coordinate matrix have the same length. *)
Definition coo_well_formed (mat : coo_matrix) : Prop :=
  length (row mat) = length (col mat).

(** A column together with its label, the column reversed. *)
Definition swap_labelled (x : Z * Z * Z) : Z * Z * Z := (swap x.1, x.2).

(** An epoch index that numpy accepts on an axis of length [epoch]. *)
Definition in_bounds (epoch ep : Z) : Prop := (- epoch ≤ ep < epoch)%Z.

(** The column that index [ep] addresses: a negative index counts from
    the end. *)
Definition wrap_index (epoch ep : Z) : Z :=
  if decide (ep < 0)%Z then (ep + epoch)%Z else ep.

(** Column [j] of the table. *)
Definition table_column (out : metric_table) (j : nat) : option (Q * Q * Q) :=
  a ← prc_row out !! j;
  b ← roc_row out !! j;
  c ← ap_row out !! j;
  Some (a, b, c).

(** The triple of the last item that addresses column [j], zeros when
    there is none. *)
Definition last_write (items : list (Z * (Q * Q * Q))) (epoch : Z) (j : nat)
  : Q * Q * Q :=
  match last (filter (λ it, wrap_index epoch it.1 = Z.of_nat j) items) with
  | Some (_, v) => v
  | None => (0%Q, 0%Q, 0%Q)
  end.

(** The three rows of a table have length [n]. *)
Definition table_width (n : nat) (out : metric_table) : Prop :=
  length (prc_row out) = n ∧ length (roc_row out) = n ∧ length (ap_row out) = n.

(** * Properties *)

(** ** The functions on small inputs *)

Example to_bidirection_example :
  to_bidirection (Edges [5; 7]%Z [1; 2]%Z) (Some [0; 1]%Z) =
  (Edges [5; 7; 1; 2]%Z [1; 2; 5; 7]%Z, Some [0; 1; 0; 1]%Z).
Proof. reflexivity. Qed.

Example remove_bidirection_example :
  remove_bidirection (Edges [5; 1; 2; 3]%Z [1; 5; 2; 0]%Z) (Some [0; 0; 1; 1]%Z) =
  Ok (Edges [5; 3]%Z [1; 0]%Z, Some [0; 1]%Z).
Proof. reflexivity. Qed.

Example get_range_list_example :
  get_range_list [Edges [5; 7]%Z [1; 2]%Z; Edges [] []; Edges [4]%Z [0]%Z] =
  [(0, 2); (2, 2); (2, 3)].
Proof. reflexivity. Qed.

Example process_edges_example :
  match process_edges example_raw (1 # 2) example_rng with
  | Ok (out, _) => Some out
  | Raise _ => None
  end =
  Some {| train_edge_idx := Edges [5; 9; 1; 3; 4; 1]%Z [1; 3; 5; 9; 1; 4]%Z;
          train_et := [0; 0; 0; 0; 1; 1]%Z;
          train_range := [(0, 4); (4, 6)];
          test_edge_idx := Edges [7; 2; 4; 0]%Z [2; 7; 0; 4]%Z;
          test_et := [0; 0; 1; 1]%Z;
          test_range := [(0, 2); (2, 4)] |}.
Proof. reflexivity. Qed.

Example get_edge_index_from_coo_example :
  get_edge_index_from_coo (Coo [0; 1]%Z [1; 2]%Z) false = Edges [0; 1]%Z [1; 2]%Z ∧
  get_edge_index_from_coo (Coo [0; 1; 2; 2]%Z [1; 0; 2; 0]%Z) true =
    Edges [1; 2; 0; 0]%Z [0; 0; 1; 2]%Z.
Proof. split; reflexivity. Qed.

(** ** Index sequences *)

Section indices.
Context {A : Type} (f : A → bool).

Lemma elem_of_indices_where (l : list A) (k j : nat) :
  j ∈ indices_where f k l ↔ k ≤ j ∧ ∃ x, l !! (j - k) = Some x ∧ f x = true.
Proof.
  revert k. induction l as [|x l IH]; intros k; simpl.
  - split; [intros H; inversion H | intros (_ & y & Hy & _); done].
  - assert (Htl : j ∈ indices_where f (S k) l ↔
                  S k ≤ j ∧ ∃ y, (x :: l) !! (j - k) = Some y ∧ f y = true).
    { rewrite IH. split; intros (Hle & y & Hy & Hf); (split; [lia|]);
        exists y; split; try done.
      - replace (j - k) with (S (j - S k)) by lia. done.
      - replace (j - k) with (S (j - S k)) in Hy by lia. done. }
    destruct (f x) eqn:Hfx.
    + rewrite elem_of_cons, Htl. split.
      * intros [->|(Hle & y & Hy & Hf)].
        -- split; [lia|]. exists x. by rewrite Nat.sub_diag.
        -- split; [lia|]. by exists y.
      * intros (Hle & y & Hy & Hf).
        destruct (decide (j = k)) as [->|Hne]; [by left|right].
        split; [lia|]. by exists y.
    + rewrite Htl. split.
      * intros (Hle & y & Hy & Hf). split; [lia|]. by exists y.
      * intros (Hle & y & Hy & Hf).
        destruct (decide (j = k)) as [->|Hne].
        -- rewrite Nat.sub_diag in Hy. simpl in Hy. congruence.
        -- split; [lia|]. by exists y.
Qed.

Lemma indices_where_lt (l : list A) (k : nat) :
  Forall (λ j, j < k + length l) (indices_where f k l).
Proof.
  apply Forall_forall. intros j (Hle & y & Hy & _)%elem_of_indices_where.
  apply lookup_lt_Some in Hy. lia.
Qed.

Lemma indices_where_sorted (l : list A) (k : nat) :
  StronglySorted lt (indices_where f k l).
Proof.
  revert k. induction l as [|x l IH]; intros k; simpl; [constructor|].
  destruct (f x); [|apply IH].
  constructor; [apply IH|].
  apply Forall_forall. intros j (Hle & _)%elem_of_indices_where. lia.
Qed.

Lemma indices_where_all (l : list A) (k : nat) :
  Forall (λ x, f x = true) l → indices_where f k l = seq k (length l).
Proof.
  intros H. revert k. induction H as [|x l Hx _ IH]; intros k; simpl; [done|].
  by rewrite Hx, IH.
Qed.

Lemma indices_where_none (l : list A) (k : nat) :
  Forall (λ x, f x = false) l → indices_where f k l = [].
Proof.
  intros H. revert k. induction H as [|x l Hx _ IH]; intros k; simpl; [done|].
  by rewrite Hx, IH.
Qed.
End indices.

Lemma index_select_ok {A} (l : list A) (idx : list nat) :
  Forall (λ j, j < length l) idx → index_select l idx = Ok (pick l idx).
Proof.
  induction 1 as [|j idx Hj _ IH]; simpl; [done|].
  apply lookup_lt_is_Some_2 in Hj as [x Hx].
  unfold pick in *. simpl. by rewrite Hx, IH.
Qed.

Lemma index_select_raise {A} (l : list A) (idx : list nat) :
  Exists (λ j, length l ≤ j) idx → index_select l idx = Raise IndexError.
Proof.
  induction idx as [|j idx IH]; intros H; simpl; [by inversion H|].
  destruct (l !! j) as [x|] eqn:Hx; [|done].
  apply Exists_cons in H as [H|H].
  - apply lookup_lt_Some in Hx. lia.
  - by rewrite IH.
Qed.

Lemma index_select_cases {A} (l : list A) (idx : list nat) :
  (Forall (λ j, j < length l) idx ∧ index_select l idx = Ok (pick l idx)) ∨
  (Exists (λ j, length l ≤ j) idx ∧ index_select l idx = Raise IndexError).
Proof.
  destruct (decide (Forall (λ j, j < length l) idx)) as [H|H].
  - left. split; [done|]. by apply index_select_ok.
  - right. apply not_Forall_Exists in H; [|apply _].
    assert (Exists (λ j, length l ≤ j) idx) as H'.
    { eapply Exists_impl; [exact H|]. simpl. intros; lia. }
    split; [done|]. by apply index_select_raise.
Qed.

Lemma length_pick {A} (l : list A) (idx : list nat) :
  Forall (λ j, j < length l) idx → length (pick l idx) = length idx.
Proof.
  induction 1 as [|j idx Hj _ IH]; simpl; [done|].
  apply lookup_lt_is_Some_2 in Hj as [x Hx].
  unfold pick in *. simpl. rewrite Hx. simpl. by rewrite IH.
Qed.

Lemma lookup_pick {A} (l : list A) (idx : list nat) (r j : nat) :
  Forall (λ j, j < length l) idx →
  idx !! r = Some j → pick l idx !! r = l !! j.
Proof.
  intros H. revert r. induction H as [|j' idx Hj _ IH]; intros r Hr; [done|].
  apply lookup_lt_is_Some_2 in Hj as [x Hx].
  unfold pick in *. simpl. rewrite Hx. simpl.
  destruct r as [|r]; simpl in *.
  - by simplify_eq.
  - by apply IH.
Qed.

Lemma pick_seq_from {A} (l : list A) (k n : nat) :
  k + n ≤ length l → pick l (seq k n) = take n (drop k l).
Proof.
  unfold pick. revert k. induction n as [|n IH]; intros k Hk; simpl; [done|].
  destruct (lookup_lt_is_Some_2 l k) as [x Hx]; [lia|].
  rewrite Hx. simpl. rewrite IH by lia.
  rewrite (drop_S l x k Hx). done.
Qed.

Lemma pick_seq {A} (l : list A) : pick l (seq 0 (length l)) = l.
Proof. rewrite pick_seq_from by lia. rewrite drop_0. apply firstn_all. Qed.

Lemma index_cols_ok (E : edges) (idx : list nat) :
  well_shaped E → Forall (λ j, j < ncols E) idx →
  index_cols E idx = Ok (pick_cols E idx).
Proof.
  unfold well_shaped, ncols, index_cols, pick_cols. intros Hw H.
  rewrite (index_select_ok (row0 E)) by done. simpl.
  rewrite (index_select_ok (row1 E)) by (by rewrite <- Hw). done.
Qed.

Lemma pick_cols_well_shaped (E : edges) (idx : list nat) :
  well_shaped E → Forall (λ j, j < ncols E) idx →
  well_shaped (pick_cols E idx) ∧ ncols (pick_cols E idx) = length idx.
Proof.
  unfold well_shaped, ncols, pick_cols. simpl. intros Hw H.
  rewrite !length_pick; [done|by rewrite <- Hw|done].
Qed.

Lemma columns_pick_cols (E : edges) (idx : list nat) (r j : nat) :
  well_shaped E → Forall (λ j, j < ncols E) idx →
  idx !! r = Some j → columns (pick_cols E idx) !! r = columns E !! j.
Proof.
  unfold well_shaped, ncols, columns, pick_cols. simpl. intros Hw H Hr.
  rewrite !lookup_zip_with.
  rewrite (lookup_pick (row0 E) idx r j), (lookup_pick (row1 E) idx r j);
    [done|by rewrite <- Hw|done|done|done].
Qed.

Lemma indices_where_app {A} (f : A → bool) (l1 l2 : list A) (k : nat) :
  indices_where f k (l1 ++ l2) =
  indices_where f k l1 ++ indices_where f (k + length l1) l2.
Proof.
  revert k. induction l1 as [|x l1 IH]; intros k; simpl.
  - by rewrite Nat.add_0_r.
  - rewrite IH. replace (S k + length l1) with (k + S (length l1)) by lia.
    by destruct (f x).
Qed.

(** ** Columns *)

Lemma elem_of_columns (E : edges) (u v : Z) :
  (u, v) ∈ columns E ↔ ∃ j, row0 E !! j = Some u ∧ row1 E !! j = Some v.
Proof.
  unfold columns. rewrite elem_of_lookup_zip_with. split.
  - intros (j & y & z & Heq & Hy & Hz). simplify_eq. by exists j.
  - intros (j & Hy & Hz). by exists j, u, v.
Qed.

Lemma cat_cols_well_shaped (l : list edges) :
  Forall well_shaped l → well_shaped (cat_cols l).
Proof.
  unfold well_shaped, cat_cols. simpl.
  induction 1 as [|E l HE _ IH]; csimpl; [done|].
  rewrite !length_app. by rewrite HE, IH.
Qed.

Lemma columns_cat_cols (l : list edges) :
  Forall well_shaped l → columns (cat_cols l) = concat (columns <$> l).
Proof.
  unfold well_shaped, cat_cols, columns. simpl.
  induction 1 as [|E l HE _ IH]; csimpl; [done|].
  rewrite zip_with_app by done. by rewrite IH.
Qed.

Lemma ncols_cat_cols (l : list edges) :
  ncols (cat_cols l) = sum_list (ncols <$> l).
Proof.
  unfold ncols, cat_cols. simpl.
  induction l as [|E l IH]; csimpl; [done|].
  by rewrite length_app, IH.
Qed.

(** ** [to_bidirection] *)

Lemma to_bidirection_edges (E : edges) (et : option (list Z)) :
  (to_bidirection E et).1 = Edges (row0 E ++ row1 E) (row1 E ++ row0 E).
Proof.
  unfold to_bidirection, cat_cols, set_row0, set_row1.
  destruct et; simpl; by rewrite !app_nil_r.
Qed.

Lemma to_bidirection_well_shaped (E : edges) (et : option (list Z)) :
  well_shaped E → well_shaped (to_bidirection E et).1.
Proof.
  rewrite to_bidirection_edges. unfold well_shaped. simpl.
  rewrite !length_app. lia.
Qed.

Lemma ncols_to_bidirection (E : edges) (et : option (list Z)) :
  well_shaped E → ncols (to_bidirection E et).1 = 2 * ncols E.
Proof.
  rewrite to_bidirection_edges. unfold well_shaped, ncols. simpl.
  rewrite !length_app. lia.
Qed.

Lemma zip_swap (a b : list Z) : zip b a = swap <$> zip a b.
Proof.
  revert b. induction a as [|x a IH]; intros [|y b]; simpl; try done.
  by rewrite IH.
Qed.

Lemma columns_to_bidirection (E : edges) (et : option (list Z)) :
  well_shaped E →
  columns (to_bidirection E et).1 = columns E ++ (swap <$> columns E).
Proof.
  intros Hw. rewrite to_bidirection_edges. unfold columns. simpl.
  rewrite zip_with_app by done. by rewrite (zip_swap (row0 E)).
Qed.

(** C3.  The bidirectional form of an edge list with [m] columns is
    again a (2, 2m) tensor: both rows have length [2 * m], the columns
    are those of the input followed by the same columns reversed, and
    with every column [(u, v)] it holds the reversed column [(v, u)]. *)
Theorem to_bidirection_symmetric (E : edges) (et : option (list Z)) :
  well_shaped E →
  well_shaped (to_bidirection E et).1 ∧
  ncols (to_bidirection E et).1 = 2 * ncols E ∧
  length (row1 (to_bidirection E et).1) = 2 * ncols E ∧
  length (columns (to_bidirection E et).1) = 2 * ncols E ∧
  columns (to_bidirection E et).1 = columns E ++ (swap <$> columns E) ∧
  ∀ u v, (u, v) ∈ columns (to_bidirection E et).1 →
         (v, u) ∈ columns (to_bidirection E et).1.
Proof.
  intros Hw.
  pose proof (to_bidirection_well_shaped E et Hw) as HB.
  pose proof (ncols_to_bidirection E et Hw) as Hn.
  split; [done|]. split; [done|]. split; [|split; [|split]].
  - unfold well_shaped, ncols in *. congruence.
  - unfold columns. rewrite length_zip_with.
    unfold well_shaped, ncols in *. lia.
  - by apply columns_to_bidirection.
  - intros u v. rewrite columns_to_bidirection by done.
    rewrite !elem_of_app, !list_elem_of_fmap.
    intros [H|(c & Hc & H)].
    + right. by exists (u, v).
    + left. destruct c as [a b]. unfold swap in Hc. simpl in Hc. by simplify_eq.
Qed.

Lemma to_bidirection_symmetric_witness :
  let E := Edges [5; 7; 9]%Z [1; 2; 3]%Z in
  well_shaped (to_bidirection E None).1 ∧
  ncols (to_bidirection E None).1 = 2 * ncols E ∧
  length (row1 (to_bidirection E None).1) = 2 * ncols E ∧
  length (columns (to_bidirection E None).1) = 2 * ncols E ∧
  columns (to_bidirection E None).1 = columns E ++ (swap <$> columns E) ∧
  ∀ u v, (u, v) ∈ columns (to_bidirection E None).1 →
         (v, u) ∈ columns (to_bidirection E None).1.
Proof. intros E. apply (to_bidirection_symmetric E None). reflexivity. Defined.

(** ** [remove_bidirection] after [to_bidirection] *)

Lemma gt_mask_canonical (a b : list Z) :
  Forall (λ c : Z * Z, (c.1 > c.2)%Z) (zip a b) →
  Forall (λ x, id x = true) (gt_mask a b) ∧
  Forall (λ x, id x = false) (gt_mask b a).
Proof.
  unfold gt_mask. revert b.
  induction a as [|x a IH]; intros [|y b] H; simpl; try (split; constructor; fail).
  simpl in H. apply Forall_cons in H as [Hxy H]. simpl in Hxy.
  destruct (IH b H) as [IH1 IH2].
  split; constructor; try done; unfold id.
  - apply Z.gtb_lt. lia.
  - rewrite Z.gtb_ltb. apply Z.ltb_ge. lia.
Qed.

Lemma keep_set_to_bidirection (E : edges) :
  well_shaped E → canonical E →
  torch_nonzero (gt_mask (row0 (to_bidirection E None).1)
                         (row1 (to_bidirection E None).1)) = seq 0 (ncols E).
Proof.
  intros Hw Hc. rewrite to_bidirection_edges. simpl.
  unfold torch_nonzero, gt_mask. rewrite zip_with_app by done.
  destruct (gt_mask_canonical (row0 E) (row1 E) Hc) as [Ht Hf].
  unfold gt_mask in Ht, Hf.
  rewrite indices_where_app, (indices_where_all id _ _ Ht),
    (indices_where_none id _ _ Hf), app_nil_r.
  rewrite length_zip_with. unfold ncols. f_equal.
  unfold well_shaped in Hw. lia.
Qed.

(** C4.  On an edge list whose columns all have source > target,
    expanding to the bidirectional form and filtering back returns the
    edge list itself; in particular the same unordered endpoint pairs. *)
Theorem remove_to_bidirection (E : edges) :
  well_shaped E → canonical E →
  ∃ R, remove_bidirection (to_bidirection E None).1 None = Ok (R, None) ∧
       R = E ∧
       (list_to_set (unordered <$> columns R) : gset (Z * Z)) =
       list_to_set (unordered <$> columns E).
Proof.
  intros Hw Hc. exists E. split; [|done].
  unfold remove_bidirection. rewrite keep_set_to_bidirection by done.
  rewrite index_cols_ok.
  - unfold rbind. do 2 f_equal. rewrite to_bidirection_edges.
    unfold pick_cols, ncols. cbn [row0 row1].
    rewrite !pick_seq_from, !drop_0 by (rewrite length_app; lia).
    rewrite take_app_length. rewrite Hw, take_app_length. by destruct E.
  - by apply to_bidirection_well_shaped.
  - rewrite ncols_to_bidirection by done. apply Forall_forall.
    intros j Hj%elem_of_seq. lia.
Qed.

Lemma remove_to_bidirection_witness :
  let E := Edges [5; 7; 9]%Z [1; 2; 3]%Z in
  ∃ R, remove_bidirection (to_bidirection E None).1 None = Ok (R, None) ∧
       R = E ∧
       (list_to_set (unordered <$> columns R) : gset (Z * Z)) =
       list_to_set (unordered <$> columns E).
Proof.
  intros E. apply (remove_to_bidirection E).
  - reflexivity.
  - unfold canonical. simpl. repeat constructor.
Defined.

(** ** Label sequences of the wrong length *)

(** C7, as the code has it.  Neither operation compares the length of the
    label sequence with the column count.  [to_bidirection] returns the
    doubled edge list and the label sequence appended to itself.
    [remove_bidirection] returns the kept columns with the labels at the
    kept positions when these positions all exist in the label sequence,
    and fails with an IndexError when one of them does not. *)
Theorem label_length_unchecked (E : edges) (l : list Z) :
  well_shaped E →
  let keep_set := torch_nonzero (gt_mask (row0 E) (row1 E)) in
  (to_bidirection E (Some l)).2 = Some (l ++ l) ∧
  ncols (to_bidirection E (Some l)).1 = 2 * ncols E ∧
  (Forall (λ j, j < length l) keep_set →
   remove_bidirection E (Some l) = Ok (pick_cols E keep_set, Some (pick l keep_set))) ∧
  (Exists (λ j, length l ≤ j) keep_set →
   remove_bidirection E (Some l) = Raise IndexError).
Proof.
  intros Hw keep_set.
  assert (Hk : Forall (λ j, j < ncols E) keep_set).
  { eapply Forall_impl; [apply indices_where_lt|]. simpl. intros j Hj.
    unfold gt_mask in Hj. rewrite length_zip_with in Hj. unfold ncols. lia. }
  split; [|split; [|split]].
  - simpl. by rewrite app_nil_r.
  - by apply ncols_to_bidirection.
  - intros Hl. unfold remove_bidirection. fold keep_set.
    rewrite index_cols_ok by done. simpl.
    by rewrite index_select_ok.
  - intros Hl. unfold remove_bidirection. fold keep_set.
    rewrite index_cols_ok by done. simpl.
    by rewrite index_select_raise.
Qed.

Lemma label_length_unchecked_witness :
  let E := Edges [5; 1; 9]%Z [1; 5; 3]%Z in
  let l := [4; 4]%Z in
  (to_bidirection E (Some l)).2 = Some (l ++ l) ∧
  ncols (to_bidirection E (Some l)).1 = 2 * ncols E ∧
  (Forall (λ j, j < length l) [0; 2] →
   remove_bidirection E (Some l) = Ok (pick_cols E [0; 2], Some (pick l [0; 2]))) ∧
  (Exists (λ j, length l ≤ j) [0; 2] →
   remove_bidirection E (Some l) = Raise IndexError).
Proof. intros E l. apply (label_length_unchecked E l). reflexivity. Defined.

(** C7, as stated, fails: a label sequence of a different length than the
    column count goes through both operations without an error.
    [remove_bidirection] on the columns (5,1), (1,5) with three labels
    keeps column 0 and label 0; [to_bidirection] on two columns with one
    label returns four columns and two labels. *)
Lemma length_mismatch_not_raised :
  (let E := Edges [5; 1]%Z [1; 5]%Z in
   let l := [0; 1; 1]%Z in
   well_shaped E ∧ length l ≠ ncols E ∧
   remove_bidirection E (Some l) = Ok (Edges [5]%Z [1]%Z, Some [0]%Z)) ∧
  (let E := Edges [5; 7]%Z [1; 2]%Z in
   let l := [0]%Z in
   well_shaped E ∧ length l ≠ ncols E ∧
   to_bidirection E (Some l) =
     (Edges [5; 7; 1; 2]%Z [1; 2; 5; 7]%Z, Some [0; 0]%Z)) ∧
  ¬ (∀ (E : edges) (l : list Z),
       well_shaped E → length l ≠ ncols E →
       ∃ e, remove_bidirection E (Some l) = Raise e).
Proof.
  split; [|split].
  - intros E l. split; [reflexivity|]. split; [|reflexivity].
    unfold ncols. simpl. lia.
  - intros E l. split; [reflexivity|]. split; [|reflexivity].
    unfold ncols. simpl. lia.
  - intros H.
    destruct (H (Edges [5; 1]%Z [1; 5]%Z) [0; 1; 1]%Z) as [e He].
    + reflexivity.
    + unfold ncols. simpl. lia.
    + discriminate He.
Qed.

(** ** [get_edge_index_from_coo] *)

Lemma columns_mask_select (a b : list Z) :
  zip (mask_select a (gt_mask a b)) (mask_select b (gt_mask a b)) =
  filter (λ c : Z * Z, (c.1 > c.2)%Z) (zip a b).
Proof.
  unfold gt_mask. revert b. induction a as [|x a IH]; intros [|y b]; simpl; try done.
  rewrite filter_cons. simpl.
  destruct (x >? y)%Z eqn:Hxy.
  - rewrite decide_True by (apply Z.gtb_lt in Hxy; lia). simpl. by rewrite IH.
  - rewrite decide_False; [by rewrite IH|].
    rewrite Z.gtb_ltb in Hxy. apply Z.ltb_ge in Hxy. lia.
Qed.

Lemma length_mask_select (a b : list Z) :
  length (mask_select a (gt_mask a b)) = length (mask_select b (gt_mask a b)).
Proof.
  unfold gt_mask. revert b. induction a as [|x a IH]; intros [|y b]; simpl; try done.
  destruct (x >? y)%Z; simpl; by rewrite IH.
Qed.

(** C10.  With [bidirection] set, the output is the strict lower
    triangle of the stored entries followed by its mirror image, so no
    stored diagonal entry shows up in it, in either direction. *)
Theorem coo_bidirection_no_diagonal (mat : coo_matrix) :
  let half := filter (λ c : Z * Z, (c.1 > c.2)%Z) (zip (row mat) (col mat)) in
  columns (get_edge_index_from_coo mat true) = half ++ (swap <$> half) ∧
  ∀ u v, (u, v) ∈ columns (get_edge_index_from_coo mat true) → u ≠ v.
Proof.
  intros half.
  assert (Hcols : columns (get_edge_index_from_coo mat true) = half ++ (swap <$> half)).
  { unfold get_edge_index_from_coo, cat_cols, columns. simpl.
    rewrite !app_nil_r, zip_with_app by apply length_mask_select.
    rewrite (zip_swap (mask_select (row mat) _)).
    fold (zip (mask_select (row mat) (gt_mask (row mat) (col mat)))
              (mask_select (col mat) (gt_mask (row mat) (col mat)))).
    by rewrite columns_mask_select. }
  split; [done|].
  intros u v. rewrite Hcols, elem_of_app, list_elem_of_fmap.
  unfold half. intros [H|([a b] & Hc & H)].
  - apply list_elem_of_filter in H as [H _]. simpl in H. lia.
  - apply list_elem_of_filter in H as [H _]. unfold swap in Hc.
    simpl in *. simplify_eq. lia.
Qed.

(** ** [to_bidirection] and the caller's tensor *)

(** C8.  [to_bidirection] swaps the rows of a clone: after the call the
    caller's tensor, and every other tensor of the store, holds the
    values it held before, and the result is a new tensor that holds the
    bidirectional form. *)
Theorem to_bidirection_preserves_input
    (h : gmap nat edges) (edge_index : nat) (E : edges) :
  h !! edge_index = Some E →
  ∃ h' out, to_bidirection_store h edge_index = Some (h', out) ∧
    h' !! edge_index = Some E ∧
    (∀ t T, h !! t = Some T → h' !! t = Some T) ∧
    h !! out = None ∧
    h' !! out = Some (to_bidirection E None).1.
Proof.
  intros HE. unfold to_bidirection_store. rewrite HE. simpl.
  set (tmp := fresh (dom h)).
  assert (Htmp : h !! tmp = None).
  { apply not_elem_of_dom. apply is_fresh. }
  assert (Hne : tmp ≠ edge_index) by (intros ->; congruence).
  unfold read_row, write_row.
  repeat (rewrite ?lookup_insert_eq, ?(lookup_insert_ne _ tmp edge_index), ?HE by done;
          simpl).
  rewrite !insert_insert_eq.
  set (T := set_row1 (set_row0 E (row1 E)) (row0 E)).
  set (out := fresh (dom (<[tmp:=T]> h))).
  assert (Hout : <[tmp:=T]> h !! out = None).
  { apply not_elem_of_dom. apply is_fresh. }
  assert (Hout_tmp : out ≠ tmp).
  { intros Heq. rewrite Heq, lookup_insert_eq in Hout. done. }
  rewrite lookup_insert_ne in Hout by done.
  exists (<[out := cat_cols [E; T]]> (<[tmp := T]> h)), out.
  split; [done|]. split; [|split; [|split]].
  - rewrite !lookup_insert_ne; [done|by intros ->|by intros ->; congruence].
  - intros t U Ht.
    rewrite !lookup_insert_ne; [done|by intros ->; congruence|by intros ->; congruence].
  - done.
  - by rewrite lookup_insert_eq.
Qed.

Lemma to_bidirection_preserves_input_witness :
  let E := Edges [5; 7]%Z [1; 2]%Z in
  let h : gmap nat edges := {[ 0 := E ]} in
  ∃ h' out, to_bidirection_store h 0 = Some (h', out) ∧
    h' !! 0 = Some E ∧
    (∀ t T, h !! t = Some T → h' !! t = Some T) ∧
    h !! out = None ∧
    h' !! out = Some (to_bidirection E None).1.
Proof.
  intros E h. apply (to_bidirection_preserves_input h 0 E). reflexivity.
Defined.

(** ** The masks drawn by [process_edges] *)

Lemma length_bernoulli_mask (p : Q) (n : nat) (g : rng) :
  length (bernoulli_mask p n g) = n.
Proof. unfold bernoulli_mask. by rewrite !length_fmap, length_seq. Qed.

Lemma bernoulli_mask_binary (p : Q) (n : nat) (g : rng) :
  binary (bernoulli_mask p n g).
Proof.
  unfold binary, bernoulli_mask. apply Forall_fmap, Forall_fmap, Forall_forall.
  intros k _. simpl. unfold bernoulli. destruct (Qlt_le_dec _ _); auto.
Qed.

Lemma length_drawn_masks (p : Q) (raw : list edges) (g : rng) :
  length (drawn_masks p raw g) = length raw.
Proof. revert g. induction raw as [|idx raw IH]; intros g; simpl; [done|]. by rewrite IH. Qed.

Lemma lookup_drawn_masks (p : Q) (raw : list edges) (g : rng) (i : nat)
    (idx : edges) (mask : list Z) :
  raw !! i = Some idx → drawn_masks p raw g !! i = Some mask →
  length mask = ncols idx ∧ binary mask.
Proof.
  revert g i. induction raw as [|idx' raw IH]; intros g [|i] Hi Hm; simpl in *;
    simplify_eq.
  - split; [apply length_bernoulli_mask|apply bernoulli_mask_binary].
  - by eapply IH.
Qed.

Lemma np_random_binomial1_ok (p : Q) (n : nat) (g : rng) :
  (0 <= p)%Q → (p <= 1)%Q →
  np_random_binomial1 p n g = Ok (bernoulli_mask p n g, advance n g).
Proof.
  intros H0 H1. unfold np_random_binomial1.
  destruct (Qlt_le_dec p 0) as [H|_]; [by apply Qlt_not_le in H|].
  destruct (Qlt_le_dec 1 p) as [H|_]; [by apply Qlt_not_le in H|]. done.
Qed.

Lemma np_random_binomial1_raise (p : Q) (n : nat) (g : rng) :
  (p < 0)%Q ∨ (1 < p)%Q → np_random_binomial1 p n g = Raise ValueError.
Proof.
  intros H. unfold np_random_binomial1.
  destruct (Qlt_le_dec p 0) as [_|H0]; [done|].
  destruct (Qlt_le_dec 1 p) as [_|H1]; [done|].
  destruct H as [H|H]; by apply Qlt_not_le in H.
Qed.

Lemma np_nonzero_lt (mask : list Z) :
  Forall (λ j, j < length mask) (np_nonzero mask).
Proof. apply (indices_where_lt _ mask 0). Qed.

Lemma split_loop_ok (p : Q) (raw : list edges) (i : nat) (a : acc) (g : rng) :
  (0 <= p)%Q → (p <= 1)%Q → Forall well_shaped raw →
  let masks := drawn_masks p raw g in
  split_loop p i raw a g =
  Ok ({| train_list := train_list a ++ zip_with train_cols raw masks;
         test_list := test_list a ++ zip_with test_cols raw masks;
         train_label_list :=
           train_label_list a ++ imap (λ k, train_labels (i + k)) masks;
         test_label_list :=
           test_label_list a ++ imap (λ k, test_labels (i + k)) masks |},
      rng_after raw g).
Proof.
  intros H0 H1 Hw. revert i a g.
  induction Hw as [|idx raw Hidx _ IH]; intros i a g; simpl.
  - unfold mret. rewrite !app_nil_r. by destruct a.
  - unfold mbind at 1. rewrite np_random_binomial1_ok by done.
    set (mask := bernoulli_mask p (ncols idx) g).
    assert (Hlen : length mask = ncols idx) by apply length_bernoulli_mask.
    unfold mbind at 1. rewrite index_cols_ok;
      [|done|rewrite <- Hlen; apply np_nonzero_lt].
    unfold lift. unfold mbind at 1. rewrite index_cols_ok; [|done|].
    2:{ rewrite <- Hlen. replace (length mask) with (length (compl_mask mask))
          by apply length_fmap. apply np_nonzero_lt. }
    rewrite IH. cbn [train_list test_list train_label_list test_label_list].
    rewrite <- !app_assoc. cbn [drawn_masks zip_with]. fold mask.
    rewrite !(Nat.add_0_r i).
    rewrite (imap_ext ((λ k, train_labels (i + k)) ∘ S) (λ k, train_labels (S i + k)));
      [|intros k m _; simpl; f_equal; lia].
    rewrite (imap_ext ((λ k, test_labels (i + k)) ∘ S) (λ k, test_labels (S i + k)));
      [|intros k m _; simpl; f_equal; lia].
    reflexivity.
Qed.

Lemma split_loop_raise (p : Q) (raw : list edges) (i : nat) (a : acc) (g : rng) :
  (p < 0)%Q ∨ (1 < p)%Q → raw ≠ [] →
  split_loop p i raw a g = Raise ValueError.
Proof.
  intros Hp Hraw. destruct raw as [|idx raw]; [done|]. simpl.
  unfold mbind at 1. by rewrite np_random_binomial1_raise.
Qed.

Lemma fmap_zip_with {A B C D} (f : C → D) (h : A → B → C) (l : list A) (k : list B) :
  f <$> zip_with h l k = zip_with (λ a b, f (h a b)) l k.
Proof.
  revert k. induction l as [|a l IH]; intros [|b k]; simpl; try done.
  by rewrite <- IH.
Qed.

Lemma process_edges_ok (raw : list edges) (p : Q) (g : rng) :
  raw ≠ [] → (0 <= p)%Q → (p <= 1)%Q → Forall well_shaped raw →
  process_edges raw p g = Ok (split_result raw (drawn_masks p raw g), rng_after raw g).
Proof.
  intros Hraw H0 H1 Hw. unfold process_edges.
  unfold mbind at 1. rewrite split_loop_ok by done.
  cbn [train_list test_list train_label_list test_label_list app].
  rewrite !fmap_zip_with.
  change (zip_with (λ a b, (to_bidirection (train_cols a b) None).1))
    with (zip_with train_segment).
  change (zip_with (λ a b, (to_bidirection (test_cols a b) None).1))
    with (zip_with test_segment).
  rewrite (imap_ext (λ k, train_labels (0 + k)) train_labels) by done.
  rewrite (imap_ext (λ k, test_labels (0 + k)) test_labels) by done.
  destruct raw as [|idx raw]; [done|]. by simpl.
Qed.

Lemma process_edges_raise (raw : list edges) (p : Q) (g : rng) :
  raw ≠ [] → (p < 0)%Q ∨ (1 < p)%Q →
  process_edges raw p g = Raise ValueError.
Proof.
  intros Hraw Hp. unfold process_edges.
  unfold mbind at 1. by rewrite split_loop_raise.
Qed.

Lemma process_edges_empty (p : Q) (g : rng) :
  process_edges [] p g = Raise RuntimeError.
Proof. reflexivity. Qed.

(** The calls that return are those on a non-empty list of types with a
    train fraction in [0, 1]. *)
Lemma process_edges_returns (raw : list edges) (p : Q) (g : rng) :
  Forall well_shaped raw →
  (∃ out g', process_edges raw p g = Ok (out, g')) ↔
  raw ≠ [] ∧ (0 <= p)%Q ∧ (p <= 1)%Q.
Proof.
  intros Hw. split.
  - intros (out & g' & H). destruct raw as [|idx raw]; [done|].
    split; [done|].
    destruct (Qlt_le_dec p 0) as [Hp|Hp].
    { rewrite process_edges_raise in H; [done|done|by left]. }
    destruct (Qlt_le_dec 1 p) as [Hp'|Hp'].
    { rewrite process_edges_raise in H; [done|done|by right]. }
    done.
  - intros (Hraw & H0 & H1). eexists _, _. by apply process_edges_ok.
Qed.

(** Every mask of zeros and ones is an outcome of the sampler when the
    train fraction lies strictly between 0 and 1. *)
Lemma every_mask_drawn (p : Q) (mask : list Z) :
  (0 < p)%Q → (p < 1)%Q → binary mask →
  ∃ g, valid_rng g ∧ bernoulli_mask p (length mask) g = mask.
Proof.
  intros H0 H1 Hb.
  exists (λ k, match mask !! k with Some 1%Z => 0%Q | _ => p end). split.
  - intros k. destruct (mask !! k) as [[|[| |]|]|]; split;
      try done; try (by apply Qlt_le_weak).
  - unfold bernoulli_mask. apply list_eq. intros k.
    rewrite !list_lookup_fmap.
    destruct (mask !! k) as [b|] eqn:Hk.
    + rewrite lookup_seq_lt by (by eapply lookup_lt_Some). simpl. rewrite Hk.
      f_equal. unfold bernoulli.
      destruct (Forall_lookup_1 _ _ _ _ Hb Hk) as [->| ->].
      * destruct (Qlt_le_dec p p) as [H|_]; [|done]. by apply Qlt_irrefl in H.
      * destruct (Qlt_le_dec 0 p) as [_|H]; [done|]. by apply Qlt_not_le in H0.
    + rewrite lookup_seq_ge by (by apply lookup_ge_None). done.
Qed.

(** ** Range tables *)

Lemma get_range_list_eq (l : list edges) : get_range_list l = ranges_from 0 l.
Proof.
  unfold get_range_list.
  assert (H : ∀ tmp s,
    fold_left (λ '(tmp, s) i, (tmp ++ [(s, s + ncols i)], s + ncols i)) l (tmp, s)
    = (tmp ++ ranges_from s l, s + sum_list (ncols <$> l))).
  { induction l as [|E l IH]; intros tmp s; csimpl.
    - by rewrite app_nil_r, Nat.add_0_r.
    - rewrite IH, <- app_assoc. csimpl. f_equal. lia. }
  by rewrite H.
Qed.

Lemma length_ranges_from (s : nat) (l : list edges) :
  length (ranges_from s l) = length l.
Proof. revert s. induction l as [|E l IH]; intros s; simpl; [done|]. by rewrite IH. Qed.

Lemma lookup_ranges_from (s : nat) (l : list edges) (i : nat) :
  ranges_from s l !! i =
  (λ E, (s + offset l i, s + offset l i + ncols E)) <$> l !! i.
Proof.
  unfold offset. revert s i. induction l as [|E l IH]; intros s [|i]; csimpl; try done.
  - by rewrite Nat.add_0_r.
  - rewrite IH. destruct (l !! i); csimpl; [|done]. do 2 f_equal; lia.
Qed.

Lemma offset_S (l : list edges) (i : nat) (E : edges) :
  l !! i = Some E → offset l (S i) = offset l i + ncols E.
Proof.
  intros H. unfold offset. rewrite (take_S_r l i E H), fmap_app, sum_list_with_app.
  csimpl. lia.
Qed.

Lemma offset_all (l : list edges) (i : nat) :
  length l ≤ i → offset l i = ncols (cat_cols l).
Proof.
  intros H. unfold offset. rewrite take_ge by done. by rewrite ncols_cat_cols.
Qed.

(** ** Segments of a concatenation *)

Lemma concat_split {A} (ll : list (list A)) (i : nat) (x : list A) :
  ll !! i = Some x →
  concat ll = concat (take i ll) ++ x ++ concat (drop (S i) ll).
Proof.
  intros H. rewrite <- (take_drop_middle ll i x H) at 1.
  by rewrite concat_app.
Qed.

Lemma length_concat_sum {A} (ll : list (list A)) :
  length (concat ll) = sum_list (length <$> ll).
Proof. induction ll as [|x ll IH]; csimpl; [done|]. by rewrite length_app, IH. Qed.

Lemma slice_concat {A} (ll : list (list A)) (i : nat) (x : list A) :
  ll !! i = Some x →
  let s := sum_list (length <$> take i ll) in
  slice s (s + length x) (concat ll) = x.
Proof.
  intros H s. unfold slice. rewrite (concat_split ll i x H).
  assert (Hs : s = length (concat (take i ll))) by (by rewrite length_concat_sum).
  rewrite Hs, drop_app_length.
  replace (length (concat (take i ll)) + length x - length (concat (take i ll)))
    with (length x) by lia.
  by rewrite take_app_length.
Qed.

Lemma lookup_concat_offset {A} (ll : list (list A)) (i r : nat) (x : list A) :
  ll !! i = Some x → r < length x →
  concat ll !! (sum_list (length <$> take i ll) + r) = x !! r.
Proof.
  intros H Hr. rewrite (concat_split ll i x H).
  rewrite lookup_app_r by (rewrite length_concat_sum; lia).
  rewrite length_concat_sum.
  replace (sum_list (length <$> take i ll) + r - sum_list (length <$> take i ll))
    with r by lia.
  by rewrite lookup_app_l.
Qed.

Lemma offset_row0 (l : list edges) (i : nat) :
  sum_list (length <$> take i (row0 <$> l)) = offset l i.
Proof.
  unfold offset. rewrite <- fmap_take, <- list_fmap_compose. done.
Qed.

Lemma offset_row1 (l : list edges) (i : nat) :
  Forall well_shaped l →
  sum_list (length <$> take i (row1 <$> l)) = offset l i.
Proof.
  intros Hw. unfold offset. rewrite <- fmap_take, <- list_fmap_compose.
  f_equal. apply Forall_fmap_ext_1.
  eapply Forall_impl; [apply Forall_take, Hw|]. intros E HE. simpl. by rewrite <- HE.
Qed.

Lemma offset_columns (l : list edges) (i : nat) :
  Forall well_shaped l →
  sum_list (length <$> take i (columns <$> l)) = offset l i.
Proof.
  intros Hw. unfold offset. rewrite <- fmap_take, <- list_fmap_compose.
  f_equal. apply Forall_fmap_ext_1.
  eapply Forall_impl; [apply Forall_take, Hw|]. intros E HE. simpl.
  unfold columns, ncols. rewrite length_zip_with. unfold well_shaped in HE. lia.
Qed.

Lemma slice_cat_cols (l : list edges) (i : nat) (E : edges) :
  Forall well_shaped l → l !! i = Some E →
  slice_cols (offset l i) (offset l i + ncols E) (cat_cols l) = E.
Proof.
  intros Hw H. unfold slice_cols, cat_cols. simpl.
  assert (HE : well_shaped E) by (eapply Forall_lookup_1; eauto).
  pose proof (slice_concat (row0 <$> l) i (row0 E)) as H0.
  rewrite list_lookup_fmap, H, offset_row0 in H0. specialize (H0 eq_refl).
  pose proof (slice_concat (row1 <$> l) i (row1 E)) as H1.
  rewrite list_lookup_fmap, H, offset_row1 in H1 by done. specialize (H1 eq_refl).
  simpl in H0, H1. rewrite <- HE in H1. unfold ncols.
  rewrite H0, H1. by destruct E.
Qed.

Lemma lookup_columns_cat_cols (l : list edges) (i r : nat) (E : edges) :
  Forall well_shaped l → l !! i = Some E → r < ncols E →
  columns (cat_cols l) !! (offset l i + r) = columns E !! r.
Proof.
  intros Hw H Hr. rewrite columns_cat_cols by done.
  rewrite <- (offset_columns l i Hw).
  apply lookup_concat_offset; [by rewrite list_lookup_fmap, H|].
  assert (HE : well_shaped E) by (eapply Forall_lookup_1; eauto).
  unfold columns, ncols in *. rewrite length_zip_with. unfold well_shaped in HE. lia.
Qed.


(** ** The segments of [process_edges] *)

Lemma train_cols_shape (idx : edges) (mask : list Z) :
  well_shaped idx → length mask = ncols idx →
  well_shaped (train_cols idx mask) ∧
  ncols (train_cols idx mask) = length (np_nonzero mask).
Proof.
  intros Hw Hlen. apply pick_cols_well_shaped; [done|].
  rewrite <- Hlen. apply np_nonzero_lt.
Qed.

Lemma train_segment_shape (idx : edges) (mask : list Z) :
  well_shaped idx → length mask = ncols idx →
  well_shaped (train_segment idx mask) ∧
  ncols (train_segment idx mask) = 2 * length (np_nonzero mask).
Proof.
  intros Hw Hlen. destruct (train_cols_shape idx mask Hw Hlen) as [Hs Hn].
  unfold train_segment. split; [by apply to_bidirection_well_shaped|].
  rewrite ncols_to_bidirection by done. by rewrite Hn.
Qed.

Lemma length_compl_mask (mask : list Z) : length (compl_mask mask) = length mask.
Proof. apply length_fmap. Qed.

Lemma test_segment_shape (idx : edges) (mask : list Z) :
  well_shaped idx → length mask = ncols idx →
  well_shaped (test_segment idx mask) ∧
  ncols (test_segment idx mask) = 2 * length (np_nonzero (compl_mask mask)).
Proof.
  intros Hw Hlen. apply (train_segment_shape idx (compl_mask mask) Hw).
  by rewrite length_compl_mask.
Qed.

Lemma lookup_segments {B} (f : edges → list Z → B) (p : Q) (raw : list edges)
    (g : rng) (i : nat) (x : B) :
  zip_with f raw (drawn_masks p raw g) !! i = Some x →
  ∃ idx mask, raw !! i = Some idx ∧ drawn_masks p raw g !! i = Some mask ∧
              length mask = ncols idx ∧ binary mask ∧ x = f idx mask.
Proof.
  intros (idx & mask & -> & Hi & Hm)%lookup_zip_with_Some.
  exists idx, mask. destruct (lookup_drawn_masks p raw g i idx mask Hi Hm). done.
Qed.

Lemma segments_lookup {B} (f : edges → list Z → B) (p : Q) (raw : list edges)
    (g : rng) (i : nat) (idx : edges) (mask : list Z) :
  raw !! i = Some idx → drawn_masks p raw g !! i = Some mask →
  zip_with f raw (drawn_masks p raw g) !! i = Some (f idx mask).
Proof. intros Hi Hm. apply lookup_zip_with_Some. by exists idx, mask. Qed.

Lemma train_segments_well_shaped (p : Q) (raw : list edges) (g : rng) :
  Forall well_shaped raw →
  Forall well_shaped (zip_with train_segment raw (drawn_masks p raw g)).
Proof.
  intros Hw. apply Forall_lookup. intros i x Hx.
  apply lookup_segments in Hx as (idx & mask & Hi & Hm & Hlen & _ & ->).
  apply train_segment_shape; [|done]. by eapply Forall_lookup_1.
Qed.

Lemma test_segments_well_shaped (p : Q) (raw : list edges) (g : rng) :
  Forall well_shaped raw →
  Forall well_shaped (zip_with test_segment raw (drawn_masks p raw g)).
Proof.
  intros Hw. apply Forall_lookup. intros i x Hx.
  apply lookup_segments in Hx as (idx & mask & Hi & Hm & Hlen & _ & ->).
  apply test_segment_shape; [|done]. by eapply Forall_lookup_1.
Qed.

Lemma example_raw_well_shaped : Forall well_shaped example_raw.
Proof. repeat constructor. Qed.

Lemma example_rng_valid : valid_rng example_rng.
Proof. intros k. unfold example_rng. by destruct (Nat.even k). Qed.



(** ** Labels *)

Lemma length_ones_times (n i : nat) : length (ones_times n i) = n.
Proof. unfold ones_times. by rewrite length_fmap, length_replicate. Qed.

Lemma lookup_ones_times (n i r : nat) :
  r < n → ones_times n i !! r = Some (Z.of_nat i).
Proof.
  intros Hr. unfold ones_times.
  rewrite list_lookup_fmap, lookup_replicate_2 by done. simpl.
  f_equal. lia.
Qed.

Lemma labels_for_lengths (segments : list edges) (labels : list (list Z)) :
  labels_for segments labels → length <$> labels = ncols <$> segments.
Proof.
  intros [Hlen H]. apply list_eq. intros i. rewrite !list_lookup_fmap.
  destruct (segments !! i) as [seg|] eqn:Hi.
  - rewrite (H i seg Hi). simpl. by rewrite length_ones_times.
  - apply lookup_ge_None in Hi. rewrite lookup_ge_None_2 by lia. done.
Qed.

Lemma labels_for_concat (segments : list edges) (labels : list (list Z)) :
  labels_for segments labels →
  length (concat labels) = ncols (cat_cols segments) ∧
  ∀ i s e j, get_range_list segments !! i = Some (s, e) → s ≤ j < e →
             concat labels !! j = Some (Z.of_nat i).
Proof.
  intros Hl. pose proof (labels_for_lengths _ _ Hl) as Hlens.
  destruct Hl as [Hlen H]. split.
  - by rewrite length_concat_sum, ncols_cat_cols, Hlens.
  - intros i s e j. rewrite get_range_list_eq, lookup_ranges_from.
    destruct (segments !! i) as [seg|] eqn:Hi; simpl; [|done].
    intros [= <- <-] Hj.
    replace j with (sum_list (length <$> take i labels) + (j - offset segments i)).
    2:{ rewrite fmap_take, Hlens, <- fmap_take. fold (offset segments i). lia. }
    rewrite (lookup_concat_offset labels i _ (ones_times (ncols seg) i)).
    + apply lookup_ones_times. lia.
    + by apply H.
    + rewrite length_ones_times. lia.
Qed.

Lemma train_labels_for (p : Q) (raw : list edges) (g : rng) :
  Forall well_shaped raw →
  let masks := drawn_masks p raw g in
  labels_for (zip_with train_segment raw masks) (imap train_labels masks).
Proof.
  intros Hw masks. split.
  - rewrite length_imap, length_zip_with. unfold masks.
    rewrite length_drawn_masks. lia.
  - intros i seg Hi.
    apply lookup_segments in Hi as (idx & mask & Hi & Hm & Hlen & _ & ->).
    rewrite list_lookup_imap. fold masks in Hm. rewrite Hm. simpl.
    assert (Hidx : well_shaped idx) by (by eapply Forall_lookup_1).
    destruct (train_segment_shape idx mask Hidx Hlen) as [_ ->]. done.
Qed.

Lemma test_labels_for (p : Q) (raw : list edges) (g : rng) :
  Forall well_shaped raw →
  let masks := drawn_masks p raw g in
  labels_for (zip_with test_segment raw masks) (imap test_labels masks).
Proof.
  intros Hw masks. split.
  - rewrite length_imap, length_zip_with. unfold masks.
    rewrite length_drawn_masks. lia.
  - intros i seg Hi.
    apply lookup_segments in Hi as (idx & mask & Hi & Hm & Hlen & _ & ->).
    rewrite list_lookup_imap. fold masks in Hm. rewrite Hm. simpl.
    assert (Hidx : well_shaped idx) by (by eapply Forall_lookup_1).
    destruct (test_segment_shape idx mask Hidx Hlen) as [_ ->]. done.
Qed.

Lemma ones_times_replicate (n i : nat) : ones_times n i = replicate n (Z.of_nat i).
Proof.
  unfold ones_times. rewrite fmap_replicate. f_equal. lia.
Qed.

Lemma labels_for_slice (segments : list edges) (labels : list (list Z))
    (i : nat) (seg : edges) :
  labels_for segments labels → segments !! i = Some seg →
  slice (offset segments i) (offset segments i + ncols seg) (concat labels) =
  replicate (ncols seg) (Z.of_nat i).
Proof.
  intros Hl Hi. pose proof (labels_for_lengths _ _ Hl) as Hlens.
  destruct Hl as [_ H]. specialize (H i seg Hi).
  pose proof (slice_concat labels i _ H) as Hs. simpl in Hs.
  rewrite fmap_take, Hlens, <- fmap_take in Hs. fold (offset segments i) in Hs.
  rewrite length_ones_times in Hs. by rewrite Hs, ones_times_replicate.
Qed.

Lemma ranges_cover (l : list edges) (j : nat) :
  j < ncols (cat_cols l) →
  ∃ i E, l !! i = Some E ∧ offset l i ≤ j < offset l i + ncols E.
Proof.
  rewrite ncols_cat_cols. unfold offset. revert j.
  induction l as [|E l IH]; intros j Hj; csimpl in *; [lia|].
  destruct (decide (j < ncols E)) as [Hlt|Hge].
  - exists 0, E. csimpl. split; [done|lia].
  - destruct (IH (j - ncols E)) as (i & E' & Hi & Hr); [lia|].
    exists (S i), E'. csimpl. split; [done|lia].
Qed.

(** C5.  In the output of [process_edges] the train (test) label
    sequence is as long as the train (test) edge tensor has columns.
    Every type has its entry in the train (test) range table; the entry
    of type [i] is the interval of the columns of the type's
    bidirectional train (test) edges, and the labels of this interval are
    all [i].  The entries cover every position, so that every label is
    the position of the type its column comes from. *)
Theorem labels_aligned (raw : list edges) (p : Q) (g : rng) :
  raw ≠ [] → (0 <= p)%Q → (p <= 1)%Q → Forall well_shaped raw →
  ∃ out g', process_edges raw p g = Ok (out, g') ∧
    let masks := drawn_masks p raw g in
    length (train_et out) = ncols (train_edge_idx out) ∧
    length (test_et out) = ncols (test_edge_idx out) ∧
    (∀ i s e j, train_range out !! i = Some (s, e) → s ≤ j < e →
                train_et out !! j = Some (Z.of_nat i)) ∧
    (∀ i s e j, test_range out !! i = Some (s, e) → s ≤ j < e →
                test_et out !! j = Some (Z.of_nat i)) ∧
    length (train_range out) = length raw ∧
    length (test_range out) = length raw ∧
    (∀ i idx mask, raw !! i = Some idx → masks !! i = Some mask →
       ∃ s e s' e',
         train_range out !! i = Some (s, e) ∧
         e = s + 2 * length (np_nonzero mask) ∧
         slice_cols s e (train_edge_idx out) = train_segment idx mask ∧
         slice s e (train_et out) = replicate (e - s) (Z.of_nat i) ∧
         test_range out !! i = Some (s', e') ∧
         e' = s' + 2 * length (np_nonzero (compl_mask mask)) ∧
         slice_cols s' e' (test_edge_idx out) = test_segment idx mask ∧
         slice s' e' (test_et out) = replicate (e' - s') (Z.of_nat i)) ∧
    (∀ j, j < ncols (train_edge_idx out) →
       ∃ i s e, i < length raw ∧ train_range out !! i = Some (s, e) ∧ s ≤ j < e ∧
                train_et out !! j = Some (Z.of_nat i)) ∧
    (∀ j, j < ncols (test_edge_idx out) →
       ∃ i s e, i < length raw ∧ test_range out !! i = Some (s, e) ∧ s ≤ j < e ∧
                test_et out !! j = Some (Z.of_nat i)).
Proof.
  intros Hraw H0 H1 Hw.
  exists (split_result raw (drawn_masks p raw g)), (rng_after raw g).
  split; [by apply process_edges_ok|]. simpl.
  pose proof (train_labels_for p raw g Hw) as Hltr.
  pose proof (test_labels_for p raw g Hw) as Hlte.
  cbv zeta in Hltr, Hlte.
  destruct (labels_for_concat _ _ Hltr) as [Htr1 Htr2].
  destruct (labels_for_concat _ _ Hlte) as [Hte1 Hte2].
  pose proof (train_segments_well_shaped p raw g Hw) as Hwtr.
  pose proof (test_segments_well_shaped p raw g Hw) as Hwte.
  assert (Hlen_tr : length (zip_with train_segment raw (drawn_masks p raw g)) = length raw)
    by (rewrite length_zip_with, length_drawn_masks; lia).
  assert (Hlen_te : length (zip_with test_segment raw (drawn_masks p raw g)) = length raw)
    by (rewrite length_zip_with, length_drawn_masks; lia).
  split; [done|]. split; [done|]. split; [done|]. split; [done|].
  split; [by rewrite get_range_list_eq, length_ranges_from|].
  split; [by rewrite get_range_list_eq, length_ranges_from|].
  split; [|split].
  - intros i idx mask Hi Hm.
    destruct (lookup_drawn_masks p raw g i idx mask Hi Hm) as [Hlen _].
    assert (Hidx : well_shaped idx) by (eapply Forall_lookup_1; [exact Hw|exact Hi]).
    pose proof (segments_lookup train_segment p raw g i idx mask Hi Hm) as Htr.
    pose proof (segments_lookup test_segment p raw g i idx mask Hi Hm) as Hte.
    destruct (train_segment_shape idx mask Hidx Hlen) as [_ Hntr].
    destruct (test_segment_shape idx mask Hidx Hlen) as [_ Hnte].
    exists (offset (zip_with train_segment raw (drawn_masks p raw g)) i),
           (offset (zip_with train_segment raw (drawn_masks p raw g)) i +
            ncols (train_segment idx mask)),
           (offset (zip_with test_segment raw (drawn_masks p raw g)) i),
           (offset (zip_with test_segment raw (drawn_masks p raw g)) i +
            ncols (test_segment idx mask)).
    rewrite !get_range_list_eq, !lookup_ranges_from, Htr, Hte.
    split; [done|]. split; [by rewrite Hntr|].
    split; [by apply slice_cat_cols|].
    split.
    { rewrite (labels_for_slice _ _ i _ Hltr Htr). f_equal. lia. }
    split; [done|]. split; [by rewrite Hnte|].
    split; [by apply slice_cat_cols|].
    rewrite (labels_for_slice _ _ i _ Hlte Hte). f_equal. lia.
  - intros j Hj. destruct (ranges_cover _ j Hj) as (i & E & Hi & Hr).
    exists i, (offset (zip_with train_segment raw (drawn_masks p raw g)) i),
           (offset (zip_with train_segment raw (drawn_masks p raw g)) i + ncols E).
    assert (Hrange : get_range_list (zip_with train_segment raw (drawn_masks p raw g)) !! i =
              Some (offset (zip_with train_segment raw (drawn_masks p raw g)) i,
                    offset (zip_with train_segment raw (drawn_masks p raw g)) i + ncols E))
      by (by rewrite get_range_list_eq, lookup_ranges_from, Hi).
    split; [apply lookup_lt_Some in Hi; lia|].
    split; [done|]. split; [done|]. by eapply Htr2.
  - intros j Hj. destruct (ranges_cover _ j Hj) as (i & E & Hi & Hr).
    exists i, (offset (zip_with test_segment raw (drawn_masks p raw g)) i),
           (offset (zip_with test_segment raw (drawn_masks p raw g)) i + ncols E).
    assert (Hrange : get_range_list (zip_with test_segment raw (drawn_masks p raw g)) !! i =
              Some (offset (zip_with test_segment raw (drawn_masks p raw g)) i,
                    offset (zip_with test_segment raw (drawn_masks p raw g)) i + ncols E))
      by (by rewrite get_range_list_eq, lookup_ranges_from, Hi).
    split; [apply lookup_lt_Some in Hi; lia|].
    split; [done|]. split; [done|]. by eapply Hte2.
Qed.

Lemma labels_aligned_witness :
  ∃ out g', process_edges example_raw (1 # 2) example_rng = Ok (out, g') ∧
    let masks := drawn_masks (1 # 2) example_raw example_rng in
    length (train_et out) = ncols (train_edge_idx out) ∧
    length (test_et out) = ncols (test_edge_idx out) ∧
    (∀ i s e j, train_range out !! i = Some (s, e) → s ≤ j < e →
                train_et out !! j = Some (Z.of_nat i)) ∧
    (∀ i s e j, test_range out !! i = Some (s, e) → s ≤ j < e →
                test_et out !! j = Some (Z.of_nat i)) ∧
    length (train_range out) = length example_raw ∧
    length (test_range out) = length example_raw ∧
    (∀ i idx mask, example_raw !! i = Some idx → masks !! i = Some mask →
       ∃ s e s' e',
         train_range out !! i = Some (s, e) ∧
         e = s + 2 * length (np_nonzero mask) ∧
         slice_cols s e (train_edge_idx out) = train_segment idx mask ∧
         slice s e (train_et out) = replicate (e - s) (Z.of_nat i) ∧
         test_range out !! i = Some (s', e') ∧
         e' = s' + 2 * length (np_nonzero (compl_mask mask)) ∧
         slice_cols s' e' (test_edge_idx out) = test_segment idx mask ∧
         slice s' e' (test_et out) = replicate (e' - s') (Z.of_nat i)) ∧
    (∀ j, j < ncols (train_edge_idx out) →
       ∃ i s e, i < length example_raw ∧ train_range out !! i = Some (s, e) ∧
                s ≤ j < e ∧ train_et out !! j = Some (Z.of_nat i)) ∧
    (∀ j, j < ncols (test_edge_idx out) →
       ∃ i s e, i < length example_raw ∧ test_range out !! i = Some (s, e) ∧
                s ≤ j < e ∧ test_et out !! j = Some (Z.of_nat i)).
Proof.
  apply (labels_aligned example_raw (1 # 2) example_rng).
  - discriminate.
  - discriminate.
  - discriminate.
  - apply example_raw_well_shaped.
Defined.

(** ** The two index sets of a type *)

Lemma elem_of_np_nonzero (mask : list Z) (j : nat) :
  binary mask → j ∈ np_nonzero mask ↔ mask !! j = Some 1%Z.
Proof.
  intros Hb. unfold np_nonzero. rewrite elem_of_indices_where, Nat.sub_0_r.
  split.
  - intros (_ & x & Hx & Hnz).
    destruct (Forall_lookup_1 _ _ _ _ Hb Hx) as [->| ->]; [done|done].
  - intros Hj. split; [lia|]. by exists 1%Z.
Qed.

Lemma compl_mask_binary (mask : list Z) : binary mask → binary (compl_mask mask).
Proof.
  unfold binary, compl_mask. intros H. apply Forall_fmap.
  eapply Forall_impl; [exact H|]. simpl. intros b [-> | ->]; auto.
Qed.

Lemma elem_of_np_nonzero_compl (mask : list Z) (j : nat) :
  binary mask → j ∈ np_nonzero (compl_mask mask) ↔ mask !! j = Some 0%Z.
Proof.
  intros Hb. rewrite elem_of_np_nonzero by (by apply compl_mask_binary).
  unfold compl_mask. rewrite list_lookup_fmap.
  destruct (mask !! j) as [b|] eqn:Hj; simpl; [|done].
  destruct (Forall_lookup_1 _ _ _ _ Hb Hj) as [->| ->]; simpl; split; done.
Qed.

Lemma mask_partition (mask : list Z) :
  binary mask →
  let train_set : gset nat := list_to_set (np_nonzero mask) in
  let test_set : gset nat := list_to_set (np_nonzero (compl_mask mask)) in
  train_set ## test_set ∧ train_set ∪ test_set = set_seq 0 (length mask).
Proof.
  intros Hb train_set test_set. split.
  - intros j. unfold train_set, test_set. rewrite !elem_of_list_to_set.
    rewrite elem_of_np_nonzero, elem_of_np_nonzero_compl by done. congruence.
  - apply set_eq. intros j. unfold train_set, test_set.
    rewrite elem_of_union, !elem_of_list_to_set, elem_of_set_seq.
    rewrite elem_of_np_nonzero, elem_of_np_nonzero_compl by done.
    split.
    + intros [H|H]; apply lookup_lt_Some in H; lia.
    + intros [_ Hj]. simpl in Hj.
      destruct (lookup_lt_is_Some_2 mask j Hj) as [b Hl].
      destruct (Forall_lookup_1 _ _ _ _ Hb Hl) as [->| ->]; auto.
Qed.

Lemma indices_where_NoDup {A} (f : A → bool) (l : list A) (k : nat) :
  NoDup (indices_where f k l).
Proof.
  revert k. induction l as [|x l IH]; intros k; simpl; [constructor|].
  destruct (f x); [|apply IH].
  apply NoDup_cons. split; [|apply IH].
  intros (Hle & _)%elem_of_indices_where. lia.
Qed.

Lemma sampler_mask_shape (p : Q) (size : nat) (g g' : rng) (train_mask : list Z) :
  np_random_binomial1 p size g = Ok (train_mask, g') →
  length train_mask = size ∧ binary train_mask.
Proof.
  unfold np_random_binomial1.
  destruct (Qlt_le_dec p 0); [done|]. destruct (Qlt_le_dec 1 p); [done|].
  intros [= <- _]. split; [apply length_bernoulli_mask|apply bernoulli_mask_binary].
Qed.

(** C1.  The loop of [process_edges] over the types (lines 44-54)
    returns, for every type, the columns of the type at the train index
    set and at the test index set that lines 46-48 compute from the mask
    the sampler returned for that type.  These two index sets are
    disjoint, and together they are [{0, ..., m - 1}], [m] the number of
    columns of the type.  The flat tensors that [process_edges] returns
    are the concatenated bidirectional forms of these per-type lists. *)
Theorem split_sets_partition (raw : list edges) (p : Q) (g : rng) :
  (0 <= p)%Q → (p <= 1)%Q → Forall well_shaped raw →
  ∃ a g', split_loop p 0 raw (Acc [] [] [] []) g = Ok (a, g') ∧
    length (train_list a) = length raw ∧
    length (test_list a) = length raw ∧
    (∀ i idx, raw !! i = Some idx →
       ∃ train_mask gi gi',
         np_random_binomial1 p (ncols idx) gi = Ok (train_mask, gi') ∧
         drawn_masks p raw g !! i = Some train_mask ∧
         let test_mask := (λ b, 1 - b)%Z <$> train_mask in
         let train_set := np_nonzero train_mask in
         let test_set := np_nonzero test_mask in
         train_list a !! i = Some (pick_cols idx train_set) ∧
         test_list a !! i = Some (pick_cols idx test_set) ∧
         ncols (pick_cols idx train_set) = length train_set ∧
         ncols (pick_cols idx test_set) = length test_set ∧
         NoDup train_set ∧ NoDup test_set ∧
         (list_to_set train_set : gset nat) ## list_to_set test_set ∧
         (list_to_set train_set ∪ list_to_set test_set : gset nat) =
           set_seq 0 (ncols idx)) ∧
    (raw ≠ [] →
     ∃ out, process_edges raw p g = Ok (out, g') ∧
       train_edge_idx out = cat_cols (bidirected (train_list a)) ∧
       test_edge_idx out = cat_cols (bidirected (test_list a))).
Proof.
  intros H0 H1 Hw. eexists _, _.
  split; [by apply split_loop_ok|].
  cbn [train_list test_list app].
  split; [rewrite length_zip_with, length_drawn_masks; lia|].
  split; [rewrite length_zip_with, length_drawn_masks; lia|].
  split.
  - intros i idx Hi.
    destruct (lookup_lt_is_Some_2 (drawn_masks p raw g) i) as [mask Hm].
    { rewrite length_drawn_masks. by eapply lookup_lt_Some. }
    destruct (lookup_drawn_masks p raw g i idx mask Hi Hm) as [Hlen Hb].
    assert (Hidx : well_shaped idx) by (eapply Forall_lookup_1; [exact Hw|exact Hi]).
    assert (Hg : ∃ gi, mask = bernoulli_mask p (ncols idx) gi).
    { clear Hlen Hb Hidx. revert g i Hi Hm.
      induction raw as [|idx' raw IH]; intros g [|i] Hi Hm; simpl in *; simplify_eq.
      - by exists g.
      - apply Forall_cons in Hw as [_ Hw]. by eapply IH. }
    destruct Hg as [gi ->].
    exists (bernoulli_mask p (ncols idx) gi), gi, (advance (ncols idx) gi).
    split; [by apply np_random_binomial1_ok|]. split; [done|].
    cbv zeta.
    split; [by apply (segments_lookup train_cols)|].
    split; [by apply (segments_lookup test_cols)|].
    destruct (train_cols_shape idx _ Hidx Hlen) as [_ Htn].
    destruct (train_cols_shape idx (compl_mask (bernoulli_mask p (ncols idx) gi)) Hidx)
      as [_ Hsn]; [by rewrite length_compl_mask|].
    split; [done|]. split; [done|].
    split; [apply indices_where_NoDup|].
    split; [apply indices_where_NoDup|].
    pose proof (mask_partition _ Hb) as Hpart. cbv zeta in Hpart.
    by rewrite Hlen in Hpart.
  - intros Hraw. eexists. split; [by apply process_edges_ok|].
    unfold bidirected. cbn [split_result train_edge_idx test_edge_idx].
    by rewrite !fmap_zip_with.
Qed.

Lemma split_sets_partition_witness :
  ∃ a g', split_loop (1 # 2) 0 example_raw (Acc [] [] [] []) example_rng = Ok (a, g') ∧
    length (train_list a) = length example_raw ∧
    length (test_list a) = length example_raw ∧
    (∀ i idx, example_raw !! i = Some idx →
       ∃ train_mask gi gi',
         np_random_binomial1 (1 # 2) (ncols idx) gi = Ok (train_mask, gi') ∧
         drawn_masks (1 # 2) example_raw example_rng !! i = Some train_mask ∧
         let test_mask := (λ b, 1 - b)%Z <$> train_mask in
         let train_set := np_nonzero train_mask in
         let test_set := np_nonzero test_mask in
         train_list a !! i = Some (pick_cols idx train_set) ∧
         test_list a !! i = Some (pick_cols idx test_set) ∧
         ncols (pick_cols idx train_set) = length train_set ∧
         ncols (pick_cols idx test_set) = length test_set ∧
         NoDup train_set ∧ NoDup test_set ∧
         (list_to_set train_set : gset nat) ## list_to_set test_set ∧
         (list_to_set train_set ∪ list_to_set test_set : gset nat) =
           set_seq 0 (ncols idx)) ∧
    (example_raw ≠ [] →
     ∃ out, process_edges example_raw (1 # 2) example_rng = Ok (out, g') ∧
       train_edge_idx out = cat_cols (bidirected (train_list a)) ∧
       test_edge_idx out = cat_cols (bidirected (test_list a))).
Proof.
  apply (split_sets_partition example_raw (1 # 2) example_rng).
  - discriminate.
  - discriminate.
  - apply example_raw_well_shaped.
Defined.

(** ** Column order inside a segment *)

Lemma length_columns (E : edges) : well_shaped E → length (columns E) = ncols E.
Proof.
  unfold well_shaped, columns, ncols. intros H. rewrite length_zip_with. lia.
Qed.

Lemma ordered_segment_cat (l : list edges) (i : nat) (idx : edges) (set : list nat) :
  Forall well_shaped l → well_shaped idx → Forall (λ j, j < ncols idx) set →
  l !! i = Some (to_bidirection (pick_cols idx set) None).1 →
  ordered_segment idx set (offset l i) (cat_cols l).
Proof.
  intros Hl Hidx Hset Hi r j Hr.
  destruct (pick_cols_well_shaped idx set Hidx Hset) as [Hp Hn].
  pose proof (Forall_lookup_1 _ _ _ _ Hset Hr) as Hj. simpl in Hj.
  rewrite <- (length_columns idx Hidx) in Hj.
  apply lookup_lt_is_Some_2 in Hj as [[u v] Huv].
  assert (Hrlt : r < length set) by (by eapply lookup_lt_Some).
  assert (Hcol : columns (pick_cols idx set) !! r = Some (u, v)).
  { by rewrite (columns_pick_cols idx set r j). }
  exists u, v. split; [done|].
  rewrite <- Nat.add_assoc.
  rewrite !(lookup_columns_cat_cols l i _ _ Hl Hi)
    by (rewrite ncols_to_bidirection by done; lia).
  rewrite columns_to_bidirection by done. split.
  - rewrite lookup_app_l by (rewrite length_columns by done; lia). done.
  - rewrite lookup_app_r by (rewrite length_columns by done; lia).
    rewrite length_columns, Hn by done.
    replace (length set + r - length set) with r by lia.
    by rewrite list_lookup_fmap, Hcol.
Qed.

(** C9.  In the output of [process_edges] the segment of type [i] keeps
    the column order: its first half is the selected columns of the
    type in increasing order of their original position, its second half
    is the same columns, swapped, in the same order.  The selected
    columns are those where the mask is 1 (train) or 0 (test). *)
Theorem segments_ordered (raw : list edges) (p : Q) (g : rng) :
  raw ≠ [] → (0 <= p)%Q → (p <= 1)%Q → Forall well_shaped raw →
  ∃ out g', process_edges raw p g = Ok (out, g') ∧
    ∀ i idx mask, raw !! i = Some idx → drawn_masks p raw g !! i = Some mask →
      let train_set := np_nonzero mask in
      let test_set := np_nonzero (compl_mask mask) in
      StronglySorted lt train_set ∧ StronglySorted lt test_set ∧
      (∀ j, j ∈ train_set ↔ mask !! j = Some 1%Z) ∧
      (∀ j, j ∈ test_set ↔ mask !! j = Some 0%Z) ∧
      ∃ s s',
        train_range out !! i = Some (s, s + 2 * length train_set) ∧
        test_range out !! i = Some (s', s' + 2 * length test_set) ∧
        ordered_segment idx train_set s (train_edge_idx out) ∧
        ordered_segment idx test_set s' (test_edge_idx out).
Proof.
  intros Hraw H0 H1 Hw.
  exists (split_result raw (drawn_masks p raw g)), (rng_after raw g).
  split; [by apply process_edges_ok|].
  intros i idx mask Hi Hm train_set test_set.
  destruct (lookup_drawn_masks p raw g i idx mask Hi Hm) as [Hlen Hb].
  assert (Hidx : well_shaped idx) by (by eapply Forall_lookup_1).
  split; [apply indices_where_sorted|]. split; [apply indices_where_sorted|].
  split; [intros j; by apply elem_of_np_nonzero|].
  split; [intros j; by apply elem_of_np_nonzero_compl|].
  pose proof (segments_lookup train_segment p raw g i idx mask Hi Hm) as Htr.
  pose proof (segments_lookup test_segment p raw g i idx mask Hi Hm) as Hte.
  exists (offset (zip_with train_segment raw (drawn_masks p raw g)) i),
         (offset (zip_with test_segment raw (drawn_masks p raw g)) i).
  cbn [split_result train_range test_range train_edge_idx test_edge_idx].
  rewrite !get_range_list_eq, !lookup_ranges_from, Htr, Hte.
  unfold fmap, option_fmap, option_map.
  destruct (train_segment_shape idx mask Hidx Hlen) as [_ ->].
  destruct (test_segment_shape idx mask Hidx Hlen) as [_ ->].
  split; [done|]. split; [done|]. split.
  - apply ordered_segment_cat; try done.
    + by apply train_segments_well_shaped.
    + rewrite <- Hlen. apply np_nonzero_lt.
  - apply ordered_segment_cat; try done.
    + by apply test_segments_well_shaped.
    + rewrite <- Hlen, <- (length_compl_mask mask). apply np_nonzero_lt.
Qed.

Lemma segments_ordered_witness :
  ∃ out g', process_edges example_raw (1 # 2) example_rng = Ok (out, g') ∧
    ∀ i idx mask, example_raw !! i = Some idx →
      drawn_masks (1 # 2) example_raw example_rng !! i = Some mask →
      let train_set := np_nonzero mask in
      let test_set := np_nonzero (compl_mask mask) in
      StronglySorted lt train_set ∧ StronglySorted lt test_set ∧
      (∀ j, j ∈ train_set ↔ mask !! j = Some 1%Z) ∧
      (∀ j, j ∈ test_set ↔ mask !! j = Some 0%Z) ∧
      ∃ s s',
        train_range out !! i = Some (s, s + 2 * length train_set) ∧
        test_range out !! i = Some (s', s' + 2 * length test_set) ∧
        ordered_segment idx train_set s (train_edge_idx out) ∧
        ordered_segment idx test_set s' (test_edge_idx out).
Proof.
  apply (segments_ordered example_raw (1 # 2) example_rng).
  - discriminate.
  - discriminate.
  - discriminate.
  - apply example_raw_well_shaped.
Defined.

(** ** The boundary values of the train fraction *)

Lemma bernoulli_zero (p u : Q) : (p == 0)%Q → (0 <= u)%Q → bernoulli p u = 0%Z.
Proof.
  intros Hp Hu. unfold bernoulli. destruct (Qlt_le_dec u p) as [H|_]; [|done].
  rewrite Hp in H. by apply Qlt_not_le in H.
Qed.

Lemma bernoulli_one (p u : Q) : (p == 1)%Q → (u < 1)%Q → bernoulli p u = 1%Z.
Proof.
  intros Hp Hu. unfold bernoulli. destruct (Qlt_le_dec u p) as [_|H]; [done|].
  rewrite Hp in H. by apply Qlt_not_le in Hu.
Qed.

Lemma valid_rng_advance (n : nat) (g : rng) : valid_rng g → valid_rng (advance n g).
Proof. intros H k. apply H. Qed.

Lemma drawn_masks_const (p : Q) (c : Z) (raw : list edges) (g : rng) :
  (∀ u, (0 <= u)%Q → (u < 1)%Q → bernoulli p u = c) → valid_rng g →
  drawn_masks p raw g = (λ idx, replicate (ncols idx) c) <$> raw.
Proof.
  intros Hc. revert g. induction raw as [|idx raw IH]; intros g Hg; csimpl; [done|].
  rewrite IH by (by apply valid_rng_advance). f_equal.
  unfold bernoulli_mask. generalize 0. generalize (ncols idx).
  induction n as [|n IHn]; intros k; csimpl; [done|].
  rewrite IHn. f_equal. apply Hc; apply Hg.
Qed.

Lemma np_nonzero_zeros (n : nat) : np_nonzero (replicate n 0%Z) = [].
Proof. apply indices_where_none, Forall_replicate. done. Qed.

Lemma np_nonzero_ones (n : nat) : np_nonzero (replicate n 1%Z) = seq 0 n.
Proof.
  unfold np_nonzero. rewrite indices_where_all by (by apply Forall_replicate).
  by rewrite length_replicate.
Qed.

Lemma train_segment_zeros (idx : edges) (n : nat) :
  train_segment idx (replicate n 0%Z) = Edges [] [].
Proof. unfold train_segment, train_cols. by rewrite np_nonzero_zeros. Qed.

Lemma train_segment_ones (idx : edges) :
  well_shaped idx →
  train_segment idx (replicate (ncols idx) 1%Z) = (to_bidirection idx None).1.
Proof.
  intros Hw. unfold train_segment, train_cols. rewrite np_nonzero_ones.
  unfold pick_cols, ncols. rewrite pick_seq. rewrite Hw, pick_seq. by destruct idx.
Qed.

Lemma test_segment_zeros (idx : edges) :
  well_shaped idx →
  test_segment idx (replicate (ncols idx) 0%Z) = (to_bidirection idx None).1.
Proof.
  intros Hw. rewrite <- train_segment_ones by done.
  unfold test_segment, test_cols, compl_mask. by rewrite fmap_replicate.
Qed.

Lemma test_segment_ones (idx : edges) (n : nat) :
  test_segment idx (replicate n 1%Z) = Edges [] [].
Proof.
  rewrite <- (train_segment_zeros idx n).
  unfold test_segment, test_cols, compl_mask. by rewrite fmap_replicate.
Qed.

Lemma zip_with_fmap_diag {A B C} (f : A → B → C) (h : A → B) (l : list A) :
  zip_with f l (h <$> l) = (λ x, f x (h x)) <$> l.
Proof. induction l as [|x l IH]; csimpl; [done|]. by rewrite IH. Qed.

Lemma cat_cols_empty (raw : list edges) :
  cat_cols ((λ _, Edges [] []) <$> raw) = Edges [] [].
Proof.
  unfold cat_cols. induction raw as [|idx raw IH]; csimpl; [done|].
  by injection IH as -> ->.
Qed.

Lemma get_range_list_empty (raw : list edges) :
  get_range_list ((λ _, Edges [] []) <$> raw) = replicate (length raw) (0, 0).
Proof.
  rewrite get_range_list_eq. induction raw as [|idx raw IH]; csimpl; [done|].
  rewrite <- IH. reflexivity.
Qed.

Lemma concat_empty {A B} (raw : list A) : concat ((λ _, @nil B) <$> raw) = [].
Proof. induction raw as [|x raw IH]; csimpl; done. Qed.

Lemma labels_zeros (raw : list edges) :
  concat (imap train_labels ((λ idx, replicate (ncols idx) 0%Z) <$> raw)) = [] ∧
  concat (imap test_labels ((λ idx, replicate (ncols idx) 1%Z) <$> raw)) = [].
Proof.
  rewrite !imap_fmap. split.
  - rewrite (imap_ext _ (const (λ _, []))), imap_const; [apply concat_empty|].
    intros i idx _. simpl. unfold train_labels. by rewrite np_nonzero_zeros.
  - rewrite (imap_ext _ (const (λ _, []))), imap_const; [apply concat_empty|].
    intros i idx _. simpl. unfold test_labels, compl_mask.
    by rewrite fmap_replicate, np_nonzero_zeros.
Qed.

Lemma labels_ones (raw : list edges) :
  imap train_labels ((λ idx, replicate (ncols idx) 1%Z) <$> raw) =
    imap (λ i idx, ones_times (2 * ncols idx) i) raw ∧
  imap test_labels ((λ idx, replicate (ncols idx) 0%Z) <$> raw) =
    imap (λ i idx, ones_times (2 * ncols idx) i) raw.
Proof.
  rewrite !imap_fmap. split; apply imap_ext; intros i idx _; simpl.
  - unfold train_labels. by rewrite np_nonzero_ones, length_seq.
  - unfold test_labels, compl_mask.
    by rewrite fmap_replicate, np_nonzero_ones, length_seq.
Qed.

Lemma split_result_zeros (raw : list edges) :
  Forall well_shaped raw →
  let out := split_result raw ((λ idx, replicate (ncols idx) 0%Z) <$> raw) in
  holds_none raw (train_edge_idx out) (train_et out) (train_range out) ∧
  holds_all raw (test_edge_idx out) (test_et out) (test_range out).
Proof.
  intros Hw. unfold split_result, holds_none, holds_all.
  cbn [train_edge_idx train_et train_range test_edge_idx test_et test_range].
  rewrite !zip_with_fmap_diag.
  rewrite (Forall_fmap_ext_1 (λ x, train_segment x (replicate (ncols x) 0%Z))
             (λ _, Edges [] []) raw)
    by (apply Forall_forall; intros; apply train_segment_zeros).
  rewrite (Forall_fmap_ext_1 (λ x, test_segment x (replicate (ncols x) 0%Z))
             (λ idx, (to_bidirection idx None).1) raw)
    by (eapply Forall_impl; [exact Hw|]; intros; by apply test_segment_zeros).
  rewrite cat_cols_empty, get_range_list_empty.
  rewrite (proj1 (labels_zeros raw)), (proj2 (labels_ones raw)). done.
Qed.

Lemma split_result_ones (raw : list edges) :
  Forall well_shaped raw →
  let out := split_result raw ((λ idx, replicate (ncols idx) 1%Z) <$> raw) in
  holds_all raw (train_edge_idx out) (train_et out) (train_range out) ∧
  holds_none raw (test_edge_idx out) (test_et out) (test_range out).
Proof.
  intros Hw. unfold split_result, holds_none, holds_all.
  cbn [train_edge_idx train_et train_range test_edge_idx test_et test_range].
  rewrite !zip_with_fmap_diag.
  rewrite (Forall_fmap_ext_1 (λ x, test_segment x (replicate (ncols x) 1%Z))
             (λ _, Edges [] []) raw)
    by (apply Forall_forall; intros; apply test_segment_ones).
  rewrite (Forall_fmap_ext_1 (λ x, train_segment x (replicate (ncols x) 1%Z))
             (λ idx, (to_bidirection idx None).1) raw)
    by (eapply Forall_impl; [exact Hw|]; intros; by apply train_segment_ones).
  rewrite cat_cols_empty, get_range_list_empty.
  rewrite (proj2 (labels_zeros raw)), (proj1 (labels_ones raw)). done.
Qed.

(** C6, as the code has it.  [process_edges] does not check [p] itself.
    On a non-empty list of types, [p = 0] gives the all-test split and
    [p = 1] the all-train split, whatever the generator delivers, with a
    size-0 segment per type on the other side and no error; [p < 0] and
    [p > 1] are rejected by the sampler and the call fails with a
    ValueError. *)
Theorem train_fraction_boundaries (raw : list edges) (p : Q) (g : rng) :
  raw ≠ [] → Forall well_shaped raw → valid_rng g →
  ((p == 0)%Q →
   ∃ out g', process_edges raw p g = Ok (out, g') ∧
     holds_none raw (train_edge_idx out) (train_et out) (train_range out) ∧
     holds_all raw (test_edge_idx out) (test_et out) (test_range out)) ∧
  ((p == 1)%Q →
   ∃ out g', process_edges raw p g = Ok (out, g') ∧
     holds_all raw (train_edge_idx out) (train_et out) (train_range out) ∧
     holds_none raw (test_edge_idx out) (test_et out) (test_range out)) ∧
  ((p < 0)%Q ∨ (1 < p)%Q → process_edges raw p g = Raise ValueError).
Proof.
  intros Hraw Hw Hg. split; [|split].
  - intros Hp. eexists _, _. split.
    + apply process_edges_ok; try done; rewrite Hp; discriminate.
    + rewrite (drawn_masks_const p 0%Z) by (by intros; try apply bernoulli_zero).
      by apply split_result_zeros.
  - intros Hp. eexists _, _. split.
    + apply process_edges_ok; try done; rewrite Hp; discriminate.
    + rewrite (drawn_masks_const p 1%Z) by (by intros; try apply bernoulli_one).
      by apply split_result_ones.
  - by apply process_edges_raise.
Qed.

Lemma train_fraction_boundaries_witness :
  (∃ out g', process_edges example_raw 0 example_rng = Ok (out, g') ∧
     holds_none example_raw (train_edge_idx out) (train_et out) (train_range out) ∧
     holds_all example_raw (test_edge_idx out) (test_et out) (test_range out)) ∧
  (∃ out g', process_edges example_raw 1 example_rng = Ok (out, g') ∧
     holds_all example_raw (train_edge_idx out) (train_et out) (train_range out) ∧
     holds_none example_raw (test_edge_idx out) (test_et out) (test_range out)) ∧
  process_edges example_raw 2 example_rng = Raise ValueError.
Proof.
  split; [|split].
  - apply (train_fraction_boundaries example_raw 0 example_rng);
      [discriminate|apply example_raw_well_shaped|apply example_rng_valid|reflexivity].
  - apply (train_fraction_boundaries example_raw 1 example_rng);
      [discriminate|apply example_raw_well_shaped|apply example_rng_valid|reflexivity].
  - apply (train_fraction_boundaries example_raw 2 example_rng);
      [discriminate|apply example_raw_well_shaped|apply example_rng_valid|].
    right. reflexivity.
Defined.

(** C6, as stated, fails: with [p = -1/2] (and with [p = 2]) on one type
    with the single column (5, 1), the call raises a ValueError instead of
    returning an all-test (all-train) split. *)
Lemma train_fraction_out_of_range_raises :
  process_edges [Edges [5]%Z [1]%Z] (-1 # 2) example_rng = Raise ValueError ∧
  process_edges [Edges [5]%Z [1]%Z] 2 example_rng = Raise ValueError ∧
  ¬ (∀ (raw : list edges) (p : Q) (g : rng),
       raw ≠ [] → Forall well_shaped raw → valid_rng g →
       (p <= 0)%Q ∨ (1 <= p)%Q →
       ∃ out g', process_edges raw p g = Ok (out, g')).
Proof.
  split; [reflexivity|]. split; [reflexivity|].
  intros H.
  destruct (H [Edges [5]%Z [1]%Z] (-1 # 2)%Q example_rng) as (out & g' & Hout).
  - discriminate.
  - repeat constructor.
  - apply example_rng_valid.
  - left. discriminate.
  - discriminate Hout.
Qed.

(** ** [remove_bidirection] as a filter *)

Lemma pick_indices_where {A B} (f : B → bool) (pre l : list A) (m : list B) :
  length m = length l →
  pick (pre ++ l) (indices_where f (length pre) m) = mask_select l (f <$> m).
Proof.
  revert pre l. induction m as [|b m IH]; intros pre [|x l] Hlen; try done.
  assert (Htl : pick (pre ++ x :: l) (indices_where f (S (length pre)) m) =
                mask_select l (f <$> m)).
  { rewrite (cons_middle x pre l), app_assoc.
    replace (S (length pre)) with (length (pre ++ [x]))
      by (rewrite length_app; simpl; lia).
    apply IH. simpl in Hlen. lia. }
  csimpl. destruct (f b); [|done].
  unfold pick in *. csimpl. rewrite list_lookup_middle by done. csimpl.
  by rewrite Htl.
Qed.

Lemma pick_mask {A B} (f : B → bool) (l : list A) (m : list B) :
  length m = length l →
  pick l (indices_where f 0 m) = mask_select l (f <$> m).
Proof. apply (pick_indices_where f [] l m). Qed.

Lemma mask_select_zip {A B} (a : list A) (b : list B) (m : list bool) :
  mask_select (zip a b) m = zip (mask_select a m) (mask_select b m).
Proof.
  revert b m. induction a as [|x a IH]; intros [|y b] [|c m]; simpl; try done.
  - destruct c; simpl; [done|]. by destruct (mask_select a m).
  - destruct c; simpl; by rewrite IH.
Qed.

Lemma length_mask_select_eq {A B} (a : list A) (b : list B) (m : list bool) :
  length a = length b → length (mask_select a m) = length (mask_select b m).
Proof.
  revert b m. induction a as [|x a IH]; intros [|y b] [|c m] Hab; simpl in *; try done.
  destruct c; simpl; rewrite (IH b m); try done; lia.
Qed.

Lemma mask_select_filter {A} (P : A → Prop) `{!∀ x, Decision (P x)} (l : list A) :
  mask_select l ((λ x, bool_decide (P x)) <$> l) = filter P l.
Proof.
  induction l as [|x l IH]; csimpl; [done|].
  rewrite filter_cons. destruct (decide (P x)) as [HP|HP].
  - rewrite bool_decide_eq_true_2 by done. by rewrite IH.
  - rewrite bool_decide_eq_false_2 by done. by rewrite IH.
Qed.

Lemma mask_select_all {A} (l : list A) (m : list bool) :
  length m = length l → Forall (λ b, id b = true) m → mask_select l m = l.
Proof.
  revert l. induction m as [|b m IH]; intros [|x l] Hlen Hm; try done.
  apply Forall_cons in Hm as [Hb Hm]. simpl in *. unfold id in Hb. subst b.
  rewrite IH; [done|lia|done].
Qed.

Lemma length_gt_mask (E : edges) :
  well_shaped E → length (gt_mask (row0 E) (row1 E)) = ncols E.
Proof.
  unfold well_shaped, gt_mask, ncols. intros H. rewrite length_zip_with. lia.
Qed.

Lemma gt_mask_columns (E : edges) :
  gt_mask (row0 E) (row1 E) =
  (λ c : Z * Z, bool_decide (c.1 > c.2)%Z) <$> columns E.
Proof.
  unfold gt_mask, columns. generalize (row1 E).
  induction (row0 E) as [|x a IH]; intros [|y b]; csimpl; try done.
  rewrite IH. f_equal. unfold Z.gtb.
  destruct (x ?= y)%Z eqn:Hc; symmetry.
  - apply bool_decide_eq_false_2. apply Z.compare_eq in Hc. lia.
  - apply bool_decide_eq_false_2. rewrite Z.compare_lt_iff in Hc. lia.
  - apply bool_decide_eq_true_2. rewrite Z.compare_gt_iff in Hc. lia.
Qed.

Lemma remove_bidirection_ok (E : edges) :
  well_shaped E →
  let mask := gt_mask (row0 E) (row1 E) in
  remove_bidirection E None =
  Ok (Edges (mask_select (row0 E) mask) (mask_select (row1 E) mask), None).
Proof.
  intros Hw mask. unfold remove_bidirection. fold mask.
  assert (Hlen : length mask = ncols E) by (by apply length_gt_mask).
  rewrite index_cols_ok; [|done|].
  2:{ rewrite <- Hlen. apply (indices_where_lt id mask 0). }
  unfold rbind, pick_cols, torch_nonzero.
  rewrite !pick_mask, list_fmap_id; [done|..];
    unfold ncols, well_shaped in *; congruence.
Qed.

Lemma remove_bidirection_labels_ok (E : edges) (l : list Z) :
  well_shaped E → length l = ncols E →
  let mask := gt_mask (row0 E) (row1 E) in
  remove_bidirection E (Some l) =
  Ok (Edges (mask_select (row0 E) mask) (mask_select (row1 E) mask),
      Some (mask_select l mask)).
Proof.
  intros Hw Hl mask. unfold remove_bidirection. fold mask.
  assert (Hlen : length mask = ncols E) by (by apply length_gt_mask).
  rewrite index_cols_ok; [|done|].
  2:{ rewrite <- Hlen. apply (indices_where_lt id mask 0). }
  unfold rbind. rewrite index_select_ok.
  2:{ rewrite Hl, <- Hlen. apply (indices_where_lt id mask 0). }
  unfold pick_cols, torch_nonzero.
  rewrite !pick_mask, list_fmap_id; [done|..];
    unfold ncols, well_shaped in *; congruence.
Qed.

Lemma columns_kept (E : edges) :
  let mask := gt_mask (row0 E) (row1 E) in
  columns (Edges (mask_select (row0 E) mask) (mask_select (row1 E) mask)) =
  filter (λ c : Z * Z, (c.1 > c.2)%Z) (columns E).
Proof. apply columns_mask_select. Qed.

Lemma kept_well_shaped (E : edges) :
  let mask := gt_mask (row0 E) (row1 E) in
  well_shaped (Edges (mask_select (row0 E) mask) (mask_select (row1 E) mask)).
Proof. apply length_mask_select. Qed.

Lemma remove_bidirection_canonical (E : edges) :
  well_shaped E → canonical E → remove_bidirection E None = Ok (E, None).
Proof.
  intros Hw Hc. rewrite remove_bidirection_ok by done.
  destruct (gt_mask_canonical (row0 E) (row1 E) Hc) as [Ht _].
  pose proof (length_gt_mask E Hw) as Hlen.
  rewrite !mask_select_all; try done; [by destruct E|..];
    unfold ncols, well_shaped in *; congruence.
Qed.

(** X1.  On an edge list without labels [remove_bidirection] never
    fails, and returns the columns with source > target, the others
    dropped, in their original order. *)
Theorem remove_bidirection_filter (E : edges) :
  well_shaped E →
  ∃ R, remove_bidirection E None = Ok (R, None) ∧ well_shaped R ∧
       columns R = filter (λ c : Z * Z, (c.1 > c.2)%Z) (columns E).
Proof.
  intros Hw. eexists. split; [by apply remove_bidirection_ok|].
  split; [apply kept_well_shaped|apply columns_kept].
Qed.

Lemma remove_bidirection_filter_witness :
  let E := Edges [5; 1; 2; 3]%Z [1; 5; 2; 0]%Z in
  ∃ R, remove_bidirection E None = Ok (R, None) ∧ well_shaped R ∧
       columns R = filter (λ c : Z * Z, (c.1 > c.2)%Z) (columns E).
Proof. intros E. apply (remove_bidirection_filter E). reflexivity. Defined.

(** X2.  With a label per column, [remove_bidirection] returns the
    (column, label) pairs whose column has source > target, in their
    original order: every kept column keeps its label. *)
Theorem remove_bidirection_keeps_labels (E : edges) (l : list Z) :
  well_shaped E → length l = ncols E →
  ∃ R l', remove_bidirection E (Some l) = Ok (R, Some l') ∧
    length l' = ncols R ∧
    zip (columns R) l' =
    filter (λ x : Z * Z * Z, (x.1.1 > x.1.2)%Z) (zip (columns E) l).
Proof.
  intros Hw Hl. eexists _, _.
  split; [by apply remove_bidirection_labels_ok|].
  set (mask := gt_mask (row0 E) (row1 E)).
  assert (Hcols : length (columns E) = length l).
  { unfold columns. rewrite length_zip_with. unfold well_shaped, ncols in *. lia. }
  assert (Hmask : mask = (λ x : Z * Z * Z, bool_decide (x.1.1 > x.1.2)%Z) <$>
                         zip (columns E) l).
  { unfold mask. rewrite gt_mask_columns.
    rewrite <- (fst_zip (columns E) l) at 1 by lia.
    by rewrite <- list_fmap_compose. }
  split.
  - unfold ncols. simpl. apply length_mask_select_eq.
    unfold ncols in Hl. congruence.
  - unfold columns at 1. simpl. fold mask.
    rewrite <- !mask_select_zip. fold (columns E).
    rewrite Hmask. apply mask_select_filter.
Qed.

Lemma remove_bidirection_keeps_labels_witness :
  let E := Edges [5; 1; 2; 3]%Z [1; 5; 2; 0]%Z in
  let l := [0; 0; 1; 1]%Z in
  ∃ R l', remove_bidirection E (Some l) = Ok (R, Some l') ∧
    length l' = ncols R ∧
    zip (columns R) l' =
    filter (λ x : Z * Z * Z, (x.1.1 > x.1.2)%Z) (zip (columns E) l).
Proof.
  intros E l. apply (remove_bidirection_keeps_labels E l); reflexivity.
Defined.

(** X3.  [remove_bidirection] is idempotent: filtering its own result
    again changes nothing. *)
Theorem remove_bidirection_idempotent (E : edges) :
  well_shaped E →
  ∃ R, remove_bidirection E None = Ok (R, None) ∧
       remove_bidirection R None = Ok (R, None).
Proof.
  intros Hw. eexists. split; [by apply remove_bidirection_ok|].
  apply remove_bidirection_canonical; [apply kept_well_shaped|].
  unfold canonical. rewrite columns_kept. apply Forall_forall.
  intros c Hc. by apply list_elem_of_filter in Hc as [Hc _].
Qed.

Lemma remove_bidirection_idempotent_witness :
  let E := Edges [5; 1; 2; 3]%Z [1; 5; 2; 0]%Z in
  ∃ R, remove_bidirection E None = Ok (R, None) ∧
       remove_bidirection R None = Ok (R, None).
Proof. intros E. apply (remove_bidirection_idempotent E). reflexivity. Defined.

(** ** Labels through [to_bidirection] *)

Lemma zip_swap_labelled (cols : list (Z * Z)) (l : list Z) :
  zip (swap <$> cols) l = swap_labelled <$> zip cols l.
Proof.
  revert l. induction cols as [|c cols IH]; intros [|y l]; csimpl; try done.
  by rewrite IH.
Qed.

(** X4.  With a label per column, [to_bidirection] returns as many
    labels as columns, and every reversed column carries the label of the
    column it reverses. *)
Theorem to_bidirection_labels (E : edges) (l : list Z) :
  well_shaped E → length l = ncols E →
  ∃ B l', to_bidirection E (Some l) = (B, Some l') ∧
    length l' = ncols B ∧
    zip (columns B) l' =
    zip (columns E) l ++ (swap_labelled <$> zip (columns E) l).
Proof.
  intros Hw Hl. eexists _, _. split; [reflexivity|].
  change (cat_cols _) with (to_bidirection E None).1.
  split.
  - rewrite ncols_to_bidirection by done. simpl.
    rewrite app_nil_r, length_app. lia.
  - rewrite columns_to_bidirection by done. simpl. rewrite app_nil_r.
    rewrite zip_with_app by (rewrite length_columns by done; lia).
    f_equal. apply zip_swap_labelled.
Qed.

Lemma to_bidirection_labels_witness :
  let E := Edges [5; 7]%Z [1; 2]%Z in
  let l := [0; 1]%Z in
  ∃ B l', to_bidirection E (Some l) = (B, Some l') ∧
    length l' = ncols B ∧
    zip (columns B) l' =
    zip (columns E) l ++ (swap_labelled <$> zip (columns E) l).
Proof. intros E l. apply (to_bidirection_labels E l); reflexivity. Defined.

(** ** [remove_bidirection] after [to_bidirection], on any edge list *)

Lemma filter_gt_swap (cols : list (Z * Z)) :
  filter (λ c : Z * Z, (c.1 > c.2)%Z) (swap <$> cols) =
  swap <$> filter (λ c : Z * Z, (c.1 < c.2)%Z) cols.
Proof.
  induction cols as [|[u v] cols IH]; csimpl; [done|].
  rewrite !filter_cons. simpl.
  destruct (decide (v > u)%Z), (decide (u < v)%Z); try lia; csimpl; by rewrite IH.
Qed.

Lemma length_filter_gt_lt (cols : list (Z * Z)) :
  length (filter (λ c : Z * Z, (c.1 > c.2)%Z) cols) +
  length (filter (λ c : Z * Z, (c.1 < c.2)%Z) cols) =
  length (filter (λ c : Z * Z, c.1 ≠ c.2) cols).
Proof.
  induction cols as [|[u v] cols IH]; [done|].
  rewrite !filter_cons. simpl.
  destruct (decide (u > v)%Z), (decide (u < v)%Z), (decide (u ≠ v));
    try lia; simpl; lia.
Qed.

(** X5.  Expanding any edge list to the bidirectional form and filtering
    back orients every edge downwards: the result is the columns with
    source > target followed by the reversed columns with
    source < target.  Self-loops are gone, every other column is kept
    once. *)
Theorem remove_to_bidirection_orients (E : edges) :
  well_shaped E →
  ∃ R, remove_bidirection (to_bidirection E None).1 None = Ok (R, None) ∧
    columns R = filter (λ c : Z * Z, (c.1 > c.2)%Z) (columns E) ++
                (swap <$> filter (λ c : Z * Z, (c.1 < c.2)%Z) (columns E)) ∧
    ncols R = length (filter (λ c : Z * Z, c.1 ≠ c.2) (columns E)).
Proof.
  intros Hw.
  pose proof (to_bidirection_well_shaped E None Hw) as HB.
  eexists. split; [by apply remove_bidirection_ok|].
  assert (Hcols : columns (Edges
      (mask_select (row0 (to_bidirection E None).1)
         (gt_mask (row0 (to_bidirection E None).1) (row1 (to_bidirection E None).1)))
      (mask_select (row1 (to_bidirection E None).1)
         (gt_mask (row0 (to_bidirection E None).1) (row1 (to_bidirection E None).1))))
    = filter (λ c : Z * Z, (c.1 > c.2)%Z) (columns E) ++
      (swap <$> filter (λ c : Z * Z, (c.1 < c.2)%Z) (columns E))).
  { rewrite (columns_kept (to_bidirection E None).1).
    rewrite columns_to_bidirection by done.
    by rewrite filter_app, filter_gt_swap. }
  split; [done|].
  rewrite <- length_columns by apply kept_well_shaped.
  rewrite Hcols, length_app, length_fmap. apply length_filter_gt_lt.
Qed.

Lemma remove_to_bidirection_orients_witness :
  let E := Edges [5; 1; 2]%Z [1; 7; 2]%Z in
  ∃ R, remove_bidirection (to_bidirection E None).1 None = Ok (R, None) ∧
    columns R = filter (λ c : Z * Z, (c.1 > c.2)%Z) (columns E) ++
                (swap <$> filter (λ c : Z * Z, (c.1 < c.2)%Z) (columns E)) ∧
    ncols R = length (filter (λ c : Z * Z, c.1 ≠ c.2) (columns E)).
Proof. intros E. apply (remove_to_bidirection_orients E). reflexivity. Defined.

(** ** [get_edge_index_from_coo] and the two normalizers *)

Lemma coo_true_edges (mat : coo_matrix) :
  let mask := gt_mask (row mat) (col mat) in
  get_edge_index_from_coo mat true =
  (to_bidirection
     (Edges (mask_select (row mat) mask) (mask_select (col mat) mask)) None).1.
Proof.
  intros mask. rewrite to_bidirection_edges.
  unfold get_edge_index_from_coo, cat_cols. csimpl. by rewrite !app_nil_r.
Qed.

(** X6.  With [bidirection] set the converter does what the two
    normalizers do one after the other: its output is [to_bidirection] of
    [remove_bidirection] of the edge list it returns without
    [bidirection]. *)
Theorem coo_bidirection_composes (mat : coo_matrix) :
  coo_well_formed mat →
  ∃ R, remove_bidirection (get_edge_index_from_coo mat false) None = Ok (R, None) ∧
       get_edge_index_from_coo mat true = (to_bidirection R None).1.
Proof.
  intros Hw. eexists. split.
  - by apply (remove_bidirection_ok (Edges (row mat) (col mat))).
  - apply coo_true_edges.
Qed.

Lemma coo_bidirection_composes_witness :
  let mat := Coo [0; 1; 2; 2]%Z [1; 0; 2; 0]%Z in
  ∃ R, remove_bidirection (get_edge_index_from_coo mat false) None = Ok (R, None) ∧
       get_edge_index_from_coo mat true = (to_bidirection R None).1.
Proof. intros mat. apply (coo_bidirection_composes mat). reflexivity. Defined.

(** X7.  The output of the converter with [bidirection] set is stable
    under the normalizers: [remove_bidirection] gives back its first
    half, whose [to_bidirection] is the output again. *)
Theorem coo_bidirection_round_trip (mat : coo_matrix) :
  ∃ half, remove_bidirection (get_edge_index_from_coo mat true) None = Ok (half, None) ∧
    columns half = filter (λ c : Z * Z, (c.1 > c.2)%Z) (zip (row mat) (col mat)) ∧
    (to_bidirection half None).1 = get_edge_index_from_coo mat true.
Proof.
  set (mask := gt_mask (row mat) (col mat)).
  set (half := Edges (mask_select (row mat) mask) (mask_select (col mat) mask)).
  assert (Hw : well_shaped half) by apply length_mask_select.
  assert (Hcols : columns half =
                  filter (λ c : Z * Z, (c.1 > c.2)%Z) (zip (row mat) (col mat)))
    by apply columns_mask_select.
  assert (Hc : canonical half).
  { unfold canonical. rewrite Hcols. apply Forall_forall.
    intros c Hin. by apply list_elem_of_filter in Hin as [Hin _]. }
  exists half. rewrite coo_true_edges. fold mask half.
  split; [|done].
  unfold remove_bidirection. rewrite keep_set_to_bidirection by done.
  rewrite index_cols_ok.
  - unfold rbind. do 2 f_equal. rewrite to_bidirection_edges.
    unfold pick_cols, ncols. cbn [row0 row1].
    rewrite !pick_seq_from, !drop_0 by (rewrite length_app; lia).
    rewrite take_app_length. rewrite Hw, take_app_length. by destruct half.
  - by apply to_bidirection_well_shaped.
  - rewrite ncols_to_bidirection by done. apply Forall_forall.
    intros j Hj%elem_of_seq. lia.
Qed.

(** ** [get_range_list] on any list of segments *)

(** X8.  [get_range_list] returns one interval per segment, entry [i]
    running from the number of columns before segment [i] to that number
    plus the size of segment [i]; consecutive intervals are adjacent, the
    last one ends at the total number of columns, and slicing the
    concatenation of the segments by entry [i] gives back segment [i]. *)
Theorem get_range_list_segments (l : list edges) :
  Forall well_shaped l →
  length (get_range_list l) = length l ∧
  (∀ i E, l !! i = Some E →
     get_range_list l !! i = Some (offset l i, offset l i + ncols E) ∧
     offset l (S i) = offset l i + ncols E ∧
     slice_cols (offset l i) (offset l i + ncols E) (cat_cols l) = E) ∧
  offset l 0 = 0 ∧
  offset l (length l) = ncols (cat_cols l).
Proof.
  intros Hw. rewrite get_range_list_eq.
  split; [apply length_ranges_from|]. split; [|split].
  - intros i E Hi. rewrite lookup_ranges_from, Hi.
    split; [done|]. split; [by apply offset_S|by apply slice_cat_cols].
  - done.
  - by apply offset_all.
Qed.

Lemma get_range_list_segments_witness :
  let l := [Edges [5; 7]%Z [1; 2]%Z; Edges [] []; Edges [4]%Z [0]%Z] in
  length (get_range_list l) = length l ∧
  (∀ i E, l !! i = Some E →
     get_range_list l !! i = Some (offset l i, offset l i + ncols E) ∧
     offset l (S i) = offset l i + ncols E ∧
     slice_cols (offset l i) (offset l i + ncols E) (cat_cols l) = E) ∧
  offset l 0 = 0 ∧
  offset l (length l) = ncols (cat_cols l).
Proof. intros l. apply (get_range_list_segments l). repeat constructor. Defined.

(** ** The outcomes of [process_edges] *)

(** X9.  [process_edges] fails with a RuntimeError on an empty list of
    types, whatever the train fraction; on a non-empty list it fails with
    a ValueError when the train fraction is outside [0, 1] and returns
    otherwise, with one range entry per type on both sides. *)
Theorem process_edges_outcomes (raw : list edges) (p : Q) (g : rng) :
  Forall well_shaped raw →
  (raw = [] → process_edges raw p g = Raise RuntimeError) ∧
  (raw ≠ [] → (p < 0)%Q ∨ (1 < p)%Q → process_edges raw p g = Raise ValueError) ∧
  (raw ≠ [] → (0 <= p)%Q → (p <= 1)%Q →
   ∃ out g', process_edges raw p g = Ok (out, g') ∧
     length (train_range out) = length raw ∧
     length (test_range out) = length raw).
Proof.
  intros Hw. split; [|split].
  - by intros ->.
  - intros Hraw Hp. by apply process_edges_raise.
  - intros Hraw H0 H1. eexists _, _. split; [by apply process_edges_ok|].
    simpl. rewrite !get_range_list_eq, !length_ranges_from, !length_zip_with.
    rewrite length_drawn_masks. lia.
Qed.

Lemma process_edges_outcomes_witness :
  process_edges [] (1 # 2) example_rng = Raise RuntimeError ∧
  process_edges example_raw 2 example_rng = Raise ValueError ∧
  ∃ out g', process_edges example_raw (1 # 2) example_rng = Ok (out, g') ∧
    length (train_range out) = length example_raw ∧
    length (test_range out) = length example_raw.
Proof.
  split; [|split].
  - apply (process_edges_outcomes [] (1 # 2) example_rng); [constructor|reflexivity].
  - apply (process_edges_outcomes example_raw 2 example_rng);
      [apply example_raw_well_shaped|discriminate|].
    right. reflexivity.
  - apply (process_edges_outcomes example_raw (1 # 2) example_rng);
      [apply example_raw_well_shaped|discriminate..].
Defined.

(** ** Nothing is lost or duplicated by the split *)

Lemma indices_where_fmap {A B} (f : B → bool) (h : A → B) (l : list A) (k : nat) :
  indices_where f k (h <$> l) = indices_where (f ∘ h) k l.
Proof.
  revert k. induction l as [|x l IH]; intros k; csimpl; [done|]. by rewrite !IH.
Qed.

Lemma mask_select_partition {A} (l : list A) (bs : list bool) :
  length bs = length l →
  mask_select l bs ++ mask_select l (negb <$> bs) ≡ₚ l.
Proof.
  revert l. induction bs as [|b bs IH]; intros [|x l] Hlen; try done.
  simpl in Hlen. csimpl. destruct b; csimpl.
  - by rewrite IH by lia.
  - rewrite <- Permutation_middle. by rewrite IH by lia.
Qed.

Lemma split_permutation {A} (l : list A) (mask : list Z) :
  length mask = length l → binary mask →
  pick l (np_nonzero mask) ++ pick l (np_nonzero (compl_mask mask)) ≡ₚ l.
Proof.
  intros Hlen Hb. unfold np_nonzero, compl_mask.
  rewrite indices_where_fmap, !pick_mask by done.
  replace ((λ b, negb (b =? 0)%Z) ∘ (λ b, (1 - b)%Z) <$> mask)
    with (negb <$> ((λ b, negb (b =? 0)%Z) <$> mask)).
  - apply mask_select_partition. by rewrite length_fmap.
  - rewrite <- list_fmap_compose. apply Forall_fmap_ext_1.
    eapply Forall_impl; [exact Hb|]. simpl. by intros b [-> | ->].
Qed.

Lemma columns_pick_cols_eq (E : edges) (idx : list nat) :
  well_shaped E → Forall (λ j, j < ncols E) idx →
  columns (pick_cols E idx) = pick (columns E) idx.
Proof.
  intros Hw H.
  assert (H' : Forall (λ j, j < length (columns E)) idx)
    by (by rewrite length_columns).
  apply list_eq. intros r.
  destruct (idx !! r) as [j|] eqn:Hr.
  - rewrite (columns_pick_cols E idx r j), (lookup_pick (columns E) idx r j); done.
  - apply lookup_ge_None in Hr.
    destruct (pick_cols_well_shaped E idx Hw H) as [Hp Hn].
    rewrite !lookup_ge_None_2; [done|by rewrite length_pick|].
    rewrite length_columns by done. lia.
Qed.

Lemma split_columns_permutation (idx : edges) (mask : list Z) :
  well_shaped idx → length mask = ncols idx → binary mask →
  columns (train_cols idx mask) ++ columns (test_cols idx mask) ≡ₚ columns idx.
Proof.
  intros Hw Hlen Hb. unfold train_cols, test_cols.
  rewrite !columns_pick_cols_eq; try done.
  - apply split_permutation; [|done]. by rewrite length_columns.
  - rewrite <- Hlen, <- (length_compl_mask mask). apply np_nonzero_lt.
  - rewrite <- Hlen. apply np_nonzero_lt.
Qed.

Lemma slice_first_half (s : nat) (flat P : edges) :
  well_shaped P →
  slice_cols s (s + 2 * ncols P) flat = (to_bidirection P None).1 →
  slice_cols s (s + ncols P) flat = P.
Proof.
  intros Hw. rewrite to_bidirection_edges. unfold slice_cols, slice.
  replace (s + 2 * ncols P - s) with (2 * ncols P) by lia.
  replace (s + ncols P - s) with (ncols P) by lia.
  remember (2 * ncols P) as n2 eqn:Hn2.
  intros [= H0 H1].
  assert (Ht : ∀ l : list Z, take (ncols P) l = take (ncols P) (take n2 l)).
  { intros l. rewrite take_take. f_equal. lia. }
  rewrite (Ht (drop s (row0 flat))), (Ht (drop s (row1 flat))), H0, H1.
  unfold ncols at 1. rewrite take_app_length.
  unfold ncols. rewrite Hw, take_app_length. by destruct P.
Qed.

(** X10.  In the output of [process_edges] the first halves of the train
    and of the test segment of a type hold, together, the columns of that
    type's input: every input edge goes to one side, once. *)
Theorem split_keeps_every_edge (raw : list edges) (p : Q) (g : rng) :
  raw ≠ [] → (0 <= p)%Q → (p <= 1)%Q → Forall well_shaped raw →
  ∃ out g', process_edges raw p g = Ok (out, g') ∧
    ∀ i idx, raw !! i = Some idx →
      ∃ s k s' k',
        train_range out !! i = Some (s, s + 2 * k) ∧
        test_range out !! i = Some (s', s' + 2 * k') ∧
        k + k' = ncols idx ∧
        columns (slice_cols s (s + k) (train_edge_idx out)) ++
        columns (slice_cols s' (s' + k') (test_edge_idx out)) ≡ₚ columns idx.
Proof.
  intros Hraw H0 H1 Hw.
  exists (split_result raw (drawn_masks p raw g)), (rng_after raw g).
  split; [by apply process_edges_ok|].
  intros i idx Hi.
  destruct (lookup_lt_is_Some_2 (drawn_masks p raw g) i) as [mask Hm].
  { rewrite length_drawn_masks. by eapply lookup_lt_Some. }
  destruct (lookup_drawn_masks p raw g i idx mask Hi Hm) as [Hlen Hb].
  assert (Hidx : well_shaped idx) by (by eapply Forall_lookup_1).
  pose proof (segments_lookup train_segment p raw g i idx mask Hi Hm) as Htr.
  pose proof (segments_lookup test_segment p raw g i idx mask Hi Hm) as Hte.
  destruct (train_cols_shape idx mask Hidx Hlen) as [Htw Htn].
  destruct (train_cols_shape idx (compl_mask mask) Hidx) as [Hsw Hsn];
    [by rewrite length_compl_mask|].
  pose proof (split_columns_permutation idx mask Hidx Hlen Hb) as Hperm.
  exists (offset (zip_with train_segment raw (drawn_masks p raw g)) i),
         (ncols (train_cols idx mask)),
         (offset (zip_with test_segment raw (drawn_masks p raw g)) i),
         (ncols (test_cols idx mask)).
  cbn [split_result train_range test_range train_edge_idx test_edge_idx].
  rewrite !get_range_list_eq, !lookup_ranges_from, Htr, Hte.
  unfold fmap, option_fmap, option_map.
  destruct (train_segment_shape idx mask Hidx Hlen) as [_ ->].
  destruct (test_segment_shape idx mask Hidx Hlen) as [_ ->].
  change (train_cols idx (compl_mask mask)) with (test_cols idx mask) in Hsw, Hsn.
  rewrite Htn, Hsn.
  split; [done|]. split; [done|]. split.
  - rewrite <- (length_columns idx Hidx), <- Hperm, length_app.
    rewrite !length_columns by done. by rewrite Htn, Hsn.
  - rewrite <- Htn, <- Hsn.
    rewrite (slice_first_half _ _ (train_cols idx mask) Htw).
    + rewrite (slice_first_half _ _ (test_cols idx mask) Hsw); [done|].
      rewrite <- (ncols_to_bidirection (test_cols idx mask) None Hsw).
      apply slice_cat_cols; [by apply test_segments_well_shaped|done].
    + rewrite <- (ncols_to_bidirection (train_cols idx mask) None Htw).
      apply slice_cat_cols; [by apply train_segments_well_shaped|done].
Qed.

Lemma split_keeps_every_edge_witness :
  ∃ out g', process_edges example_raw (1 # 2) example_rng = Ok (out, g') ∧
    ∀ i idx, example_raw !! i = Some idx →
      ∃ s k s' k',
        train_range out !! i = Some (s, s + 2 * k) ∧
        test_range out !! i = Some (s', s' + 2 * k') ∧
        k + k' = ncols idx ∧
        columns (slice_cols s (s + k) (train_edge_idx out)) ++
        columns (slice_cols s' (s' + k') (test_edge_idx out)) ≡ₚ columns idx.
Proof.
  apply (split_keeps_every_edge example_raw (1 # 2) example_rng).
  - discriminate.
  - discriminate.
  - discriminate.
  - apply example_raw_well_shaped.
Defined.

(** ** Both outputs are bidirectional *)

Lemma elem_of_concat {A} (x : A) (ll : list (list A)) :
  x ∈ concat ll ↔ ∃ l, x ∈ l ∧ l ∈ ll.
Proof.
  induction ll as [|l ll IH]; simpl.
  - split; [by intros H%elem_of_nil|by intros (l & _ & H%elem_of_nil)].
  - rewrite elem_of_app, IH. split.
    + intros [H|(l' & H & Hl')].
      * exists l. split; [done|apply list_elem_of_here].
      * exists l'. split; [done|by apply list_elem_of_further].
    + intros (l' & H & [->|Hl']%elem_of_cons); [by left|].
      right. by exists l'.
Qed.

Lemma segments_closed_under_swap (l : list edges) :
  Forall well_shaped l →
  Forall (λ seg, ∃ P, well_shaped P ∧ seg = (to_bidirection P None).1) l →
  ∀ u v, (u, v) ∈ columns (cat_cols l) → (v, u) ∈ columns (cat_cols l).
Proof.
  intros Hw Hseg u v. rewrite columns_cat_cols by done.
  rewrite !elem_of_concat.
  intros (cols & Hin & (seg & -> & Hs)%list_elem_of_fmap).
  exists (columns seg). split; [|apply list_elem_of_fmap; by exists seg].
  destruct (proj1 (Forall_forall _ _) Hseg seg Hs) as (P & HP & ->).
  rewrite columns_to_bidirection in Hin |- * by done.
  rewrite !elem_of_app, !list_elem_of_fmap in Hin |- *.
  destruct Hin as [H|([a b] & Hc & H)].
  - right. by exists (u, v).
  - left. unfold swap in Hc. simpl in Hc. by simplify_eq.
Qed.

(** X11.  Both edge tensors that [process_edges] returns are
    bidirectional: with every column [(u, v)] the train tensor holds
    [(v, u)], and so does the test tensor. *)
Theorem split_outputs_symmetric (raw : list edges) (p : Q) (g : rng) :
  raw ≠ [] → (0 <= p)%Q → (p <= 1)%Q → Forall well_shaped raw →
  ∃ out g', process_edges raw p g = Ok (out, g') ∧
    (∀ u v, (u, v) ∈ columns (train_edge_idx out) →
            (v, u) ∈ columns (train_edge_idx out)) ∧
    (∀ u v, (u, v) ∈ columns (test_edge_idx out) →
            (v, u) ∈ columns (test_edge_idx out)).
Proof.
  intros Hraw H0 H1 Hw.
  exists (split_result raw (drawn_masks p raw g)), (rng_after raw g).
  split; [by apply process_edges_ok|]. simpl. split.
  - apply segments_closed_under_swap; [by apply train_segments_well_shaped|].
    apply Forall_lookup. intros i x Hx.
    apply lookup_segments in Hx as (idx & mask & Hi & Hm & Hlen & _ & ->).
    exists (train_cols idx mask). split; [|done].
    apply train_cols_shape; [by eapply Forall_lookup_1|done].
  - apply segments_closed_under_swap; [by apply test_segments_well_shaped|].
    apply Forall_lookup. intros i x Hx.
    apply lookup_segments in Hx as (idx & mask & Hi & Hm & Hlen & _ & ->).
    exists (test_cols idx mask). split; [|done].
    apply (train_cols_shape idx (compl_mask mask)); [by eapply Forall_lookup_1|].
    by rewrite length_compl_mask.
Qed.

Lemma split_outputs_symmetric_witness :
  ∃ out g', process_edges example_raw (1 # 2) example_rng = Ok (out, g') ∧
    (∀ u v, (u, v) ∈ columns (train_edge_idx out) →
            (v, u) ∈ columns (train_edge_idx out)) ∧
    (∀ u v, (u, v) ∈ columns (test_edge_idx out) →
            (v, u) ∈ columns (test_edge_idx out)).
Proof.
  apply (split_outputs_symmetric example_raw (1 # 2) example_rng).
  - discriminate.
  - discriminate.
  - discriminate.
  - apply example_raw_well_shaped.
Defined.

(** ** The label sequences as a whole *)

Lemma labels_blocks (size : nat → list Z → nat) (masks : list (list Z)) (i : nat) :
  let labels := concat (imap (λ k m, ones_times (size k m) (i + k)) masks) in
  Forall (λ t, (Z.of_nat i ≤ t < Z.of_nat (i + length masks))%Z) labels ∧
  StronglySorted Z.le labels.
Proof.
  revert i size. induction masks as [|m masks IH]; intros i size; simpl.
  - split; constructor.
  - destruct (IH (S i) (λ k, size (S k))) as [Hb Hs].
    rewrite (imap_ext _ (λ k m, ones_times (size (S k) m) (S i + k)))
      by (intros k x _; simpl; f_equal; lia).
    rewrite Nat.add_0_r, ones_times_replicate. split.
    + apply Forall_app. split.
      * apply Forall_replicate. lia.
      * eapply Forall_impl; [exact Hb|]. simpl. intros t Ht. lia.
    + apply StronglySorted_app_2; [| |done].
      * intros x1 x2 [-> _]%elem_of_replicate Hx2.
        pose proof (proj1 (Forall_forall _ _) Hb x2 Hx2) as Hx. simpl in Hx. lia.
      * induction (size 0 m) as [|n IHn]; simpl; constructor; [done|].
        apply Forall_replicate. lia.
Qed.

(** X12.  The label sequences that [process_edges] returns only hold
    type positions, that is, numbers from 0 to the number of types minus
    1, and they are sorted: the labels of a type come after those of the
    types before it. *)
Theorem split_labels_sorted (raw : list edges) (p : Q) (g : rng) :
  raw ≠ [] → (0 <= p)%Q → (p <= 1)%Q → Forall well_shaped raw →
  ∃ out g', process_edges raw p g = Ok (out, g') ∧
    Forall (λ t, (0 ≤ t < Z.of_nat (length raw))%Z) (train_et out) ∧
    Forall (λ t, (0 ≤ t < Z.of_nat (length raw))%Z) (test_et out) ∧
    StronglySorted Z.le (train_et out) ∧
    StronglySorted Z.le (test_et out).
Proof.
  intros Hraw H0 H1 Hw.
  exists (split_result raw (drawn_masks p raw g)), (rng_after raw g).
  split; [by apply process_edges_ok|]. simpl.
  destruct (labels_blocks (λ _ m, 2 * length (np_nonzero m))
              (drawn_masks p raw g) 0) as [Hb1 Hs1].
  destruct (labels_blocks (λ _ m, 2 * length (np_nonzero (compl_mask m)))
              (drawn_masks p raw g) 0) as [Hb2 Hs2].
  rewrite length_drawn_masks in Hb1, Hb2. done.
Qed.

Lemma split_labels_sorted_witness :
  ∃ out g', process_edges example_raw (1 # 2) example_rng = Ok (out, g') ∧
    Forall (λ t, (0 ≤ t < Z.of_nat (length example_raw))%Z) (train_et out) ∧
    Forall (λ t, (0 ≤ t < Z.of_nat (length example_raw))%Z) (test_et out) ∧
    StronglySorted Z.le (train_et out) ∧
    StronglySorted Z.le (test_et out).
Proof.
  apply (split_labels_sorted example_raw (1 # 2) example_rng).
  - discriminate.
  - discriminate.
  - discriminate.
  - apply example_raw_well_shaped.
Defined.

(** ** [get_indices_mask] *)

Lemma lookup_columns (E : edges) (j : nat) (u v : Z) :
  columns E !! j = Some (u, v) ↔ row0 E !! j = Some u ∧ row1 E !! j = Some v.
Proof.
  unfold columns. rewrite lookup_zip_with_Some. split.
  - by intros (x & y & [= -> ->] & Hx & Hy).
  - intros [Hx Hy]. by exists u, v.
Qed.

Lemma get_indices_mask_ok (indices : edges) (in_indices : list Z) :
  0 < ncols indices →
  get_indices_mask indices in_indices =
  Ok (zip_with andb (np_isin (row0 indices) in_indices)
                    (np_isin (row1 indices) in_indices)).
Proof.
  intros H. unfold get_indices_mask, reshape_rows.
  destruct (decide (ncols indices = 0)); [lia|done].
Qed.

(** X13.  [get_indices_mask] fails with a ValueError on an edge list
    without columns.  On an edge list with columns it returns one boolean
    per column, true exactly when both endpoints of the column belong to
    the reference indices. *)
Theorem get_indices_mask_membership (indices : edges) (in_indices : list Z) :
  well_shaped indices →
  (ncols indices = 0 → get_indices_mask indices in_indices = Raise ValueError) ∧
  (0 < ncols indices →
   ∃ mask, get_indices_mask indices in_indices = Ok mask ∧
     length mask = ncols indices ∧
     ∀ j u v, columns indices !! j = Some (u, v) →
       mask !! j = Some (bool_decide (u ∈ in_indices ∧ v ∈ in_indices))).
Proof.
  intros Hw. split.
  - intros H. unfold get_indices_mask, reshape_rows. by rewrite H.
  - intros H. eexists. split; [by apply get_indices_mask_ok|]. split.
    + unfold np_isin, ncols. rewrite length_zip_with, !length_fmap.
      unfold well_shaped in Hw. lia.
    + intros j u v [Hu Hv]%lookup_columns.
      unfold np_isin. rewrite lookup_zip_with, !list_lookup_fmap, Hu, Hv. simpl.
      f_equal. symmetry. apply bool_decide_and.
Qed.

Lemma get_indices_mask_membership_witness :
  let indices := Edges [5; 7; 9]%Z [1; 2; 3]%Z in
  let in_indices := [1; 5; 9]%Z in
  get_indices_mask (Edges [] []) in_indices = Raise ValueError ∧
  ∃ mask, get_indices_mask indices in_indices = Ok mask ∧
    length mask = ncols indices ∧
    ∀ j u v, columns indices !! j = Some (u, v) →
      mask !! j = Some (bool_decide (u ∈ in_indices ∧ v ∈ in_indices)).
Proof.
  intros indices in_indices. split.
  - apply (get_indices_mask_membership (Edges [] []) in_indices); reflexivity.
  - apply (get_indices_mask_membership indices in_indices); [reflexivity|].
    unfold ncols. simpl. lia.
Defined.

(** X14.  An edge and its reverse get the same verdict: the mask of the
    bidirectional form of an edge list is the mask of the edge list,
    twice. *)
Theorem get_indices_mask_bidirection (E : edges) (in_indices : list Z) :
  well_shaped E → 0 < ncols E →
  ∃ mask, get_indices_mask E in_indices = Ok mask ∧
    get_indices_mask (to_bidirection E None).1 in_indices = Ok (mask ++ mask).
Proof.
  intros Hw Hn. eexists. split; [by apply get_indices_mask_ok|].
  rewrite get_indices_mask_ok by (rewrite ncols_to_bidirection by done; lia).
  rewrite to_bidirection_edges. cbn [row0 row1]. unfold np_isin.
  rewrite !fmap_app. rewrite zip_with_app by (rewrite !length_fmap; done).
  do 2 f_equal.
  generalize (row1 E). induction (row0 E) as [|x a IH]; intros [|y b]; csimpl; try done.
  by rewrite IH, andb_comm.
Qed.

Lemma get_indices_mask_bidirection_witness :
  let E := Edges [5; 7; 9]%Z [1; 2; 3]%Z in
  let in_indices := [1; 5; 9]%Z in
  ∃ mask, get_indices_mask E in_indices = Ok mask ∧
    get_indices_mask (to_bidirection E None).1 in_indices = Ok (mask ++ mask).
Proof.
  intros E in_indices. apply (get_indices_mask_bidirection E in_indices).
  - reflexivity.
  - unfold ncols. simpl. lia.
Defined.

(** ** [dict_ep_to_nparray] *)

Lemma np_index_in_bounds (n : nat) (ep : Z) :
  in_bounds (Z.of_nat n) ep →
  np_index n ep = Ok (Z.to_nat (wrap_index (Z.of_nat n) ep)) ∧
  Z.to_nat (wrap_index (Z.of_nat n) ep) < n.
Proof.
  unfold in_bounds, np_index, wrap_index. intros H.
  destruct (decide (0 ≤ ep < Z.of_nat n)%Z), (decide (ep < 0)%Z); try lia.
  - split; [done|lia].
  - destruct (decide (- Z.of_nat n ≤ ep < 0)%Z); [|lia]. split; [done|lia].
Qed.

Lemma np_index_out_of_bounds (n : nat) (ep : Z) :
  ¬ in_bounds (Z.of_nat n) ep →
  np_index n ep =
  Raise (if decide (2 ^ 63 ≤ ep < 2 ^ 64)%Z then OverflowError else IndexError).
Proof.
  unfold in_bounds, np_index. intros H.
  destruct (decide (0 ≤ ep < Z.of_nat n)%Z); [lia|].
  destruct (decide (- Z.of_nat n ≤ ep < 0)%Z); [lia|].
  by destruct (decide (2 ^ 63 ≤ ep < 2 ^ 64)%Z).
Qed.

Lemma fill_table_step (n : nat) (out : metric_table) (ep : Z) (a b c : Q) :
  table_width n out → in_bounds (Z.of_nat n) ep →
  let j := Z.to_nat (wrap_index (Z.of_nat n) ep) in
  let out' := MetricTable (<[j := a]> (prc_row out)) (<[j := b]> (roc_row out))
                          (<[j := c]> (ap_row out)) in
  ∀ rest, fill_table ((ep, (a, b, c)) :: rest) out = fill_table rest out' ∧
          table_width n out' ∧ j < n.
Proof.
  intros (H0 & H1 & H2) Hb j out' rest.
  destruct (np_index_in_bounds n ep Hb) as [Hi Hj]. fold j in Hi, Hj.
  split; [|split; [|done]].
  - simpl. unfold np_setitem. rewrite H0, H1, H2, Hi. done.
  - unfold table_width, out'. simpl. by rewrite !length_insert.
Qed.

Lemma table_column_insert (n : nat) (out : metric_table) (j k : nat) (a b c : Q) :
  table_width n out → j < n →
  table_column (MetricTable (<[j := a]> (prc_row out)) (<[j := b]> (roc_row out))
                            (<[j := c]> (ap_row out))) k =
  if decide (k = j) then Some (a, b, c) else table_column out k.
Proof.
  intros (H0 & H1 & H2) Hj. unfold table_column. simpl.
  destruct (decide (k = j)) as [->|Hne].
  - rewrite !list_lookup_insert_eq by lia. done.
  - by rewrite !list_lookup_insert_ne.
Qed.

Lemma fill_table_app (items rest : list (Z * (Q * Q * Q))) (out : metric_table) :
  fill_table (items ++ rest) out =
  (out' ←r fill_table items out; fill_table rest out').
Proof.
  revert out. induction items as [|[ep [[a b] c]] items IH]; intros out; [done|].
  simpl. destruct (np_setitem (prc_row out) ep a); [|done]. simpl.
  destruct (np_setitem (roc_row out) ep b); [|done]. simpl.
  destruct (np_setitem (ap_row out) ep c); [|done]. simpl. apply IH.
Qed.

Lemma last_write_snoc (items : list (Z * (Q * Q * Q))) (epoch : Z) (j : nat)
    (ep : Z) (v : Q * Q * Q) :
  last_write (items ++ [(ep, v)]) epoch j =
  if decide (wrap_index epoch ep = Z.of_nat j) then v else last_write items epoch j.
Proof.
  unfold last_write. rewrite filter_app, filter_cons, filter_nil. simpl.
  destruct (decide (wrap_index epoch ep = Z.of_nat j)).
  - by rewrite last_snoc.
  - by rewrite app_nil_r.
Qed.

Lemma fill_table_columns (n : nat) (items : list (Z * (Q * Q * Q))) :
  Forall (λ it, in_bounds (Z.of_nat n) it.1) items →
  let zeros := replicate n 0%Q in
  ∃ out, fill_table items (MetricTable zeros zeros zeros) = Ok out ∧
    table_width n out ∧
    ∀ j, j < n → table_column out j = Some (last_write items (Z.of_nat n) j).
Proof.
  intros Hb zeros. induction items as [|[ep [[a b] c]] items IH] using rev_ind.
  - eexists. split; [done|]. split.
    + unfold table_width, zeros. simpl. by rewrite length_replicate.
    + intros j Hj. unfold table_column, zeros. simpl.
      by rewrite lookup_replicate_2.
  - apply Forall_app in Hb as [Hb Hit].
    apply Forall_cons in Hit as [Hit _]. simpl in Hit.
    destruct (IH Hb) as (out & Hout & Hw & Hcol).
    destruct (fill_table_step n out ep a b c Hw Hit []) as (Hstep & Hw' & Hj).
    eexists. split; [|split; [exact Hw'|]].
    + rewrite fill_table_app, Hout. cbv beta iota delta [rbind].
      rewrite Hstep. done.
    + intros j Hjn. rewrite (table_column_insert n) by done.
      rewrite last_write_snoc.
      destruct (decide (j = Z.to_nat (wrap_index (Z.of_nat n) ep))) as [->|Hne].
      * rewrite decide_True; [done|].
        unfold wrap_index, in_bounds in *. destruct (decide (ep < 0)%Z); lia.
      * rewrite decide_False; [by apply Hcol|]. lia.
Qed.

Lemma fill_table_raise (n : nat) (rest : list (Z * (Q * Q * Q)))
    (out : metric_table) (ep : Z) (v : Q * Q * Q) :
  table_width n out → ¬ in_bounds (Z.of_nat n) ep →
  fill_table ((ep, v) :: rest) out =
  Raise (if decide (2 ^ 63 ≤ ep < 2 ^ 64)%Z then OverflowError else IndexError).
Proof.
  intros (H0 & _) Hb. destruct v as [[a b] c]. simpl. unfold np_setitem.
  by rewrite H0, np_index_out_of_bounds.
Qed.

(** X15.  When every key of the dictionary is a valid index of an axis of
    length [epoch], [dict_ep_to_nparray] returns a table of [epoch]
    columns in which column [j] is the triple of the last item whose key
    addresses [j] (a negative key counting from the end), and zeros when
    no key addresses it. *)
Theorem dict_ep_to_nparray_columns (out_dict : list (Z * (Q * Q * Q))) (epoch : Z) :
  (0 ≤ epoch)%Z → Forall (λ it, in_bounds epoch it.1) out_dict →
  ∃ out, dict_ep_to_nparray out_dict epoch = Ok out ∧
    table_width (Z.to_nat epoch) out ∧
    ∀ j, j < Z.to_nat epoch →
      table_column out j = Some (last_write out_dict epoch j).
Proof.
  intros He Hb. unfold dict_ep_to_nparray.
  destruct (decide (epoch < 0)%Z); [lia|].
  rewrite <- (Z2Nat.id epoch He) in Hb.
  destruct (fill_table_columns (Z.to_nat epoch) out_dict Hb) as (out & Hout & Hw & Hcol).
  exists out. rewrite (Z2Nat.id epoch He) in Hcol. done.
Qed.

Lemma dict_ep_to_nparray_columns_witness :
  let out_dict : list (Z * (Q * Q * Q)) :=
    [(0%Z, ((1 # 2)%Q, (1 # 3)%Q, (1 # 4)%Q)); (2%Z, (1%Q, 1%Q, 1%Q));
     ((-1)%Z, (0%Q, (1 # 5)%Q, 1%Q))] in
  ∃ out, dict_ep_to_nparray out_dict 3 = Ok out ∧
    table_width (Z.to_nat 3) out ∧
    ∀ j, j < Z.to_nat 3 →
      table_column out j = Some (last_write out_dict 3 j).
Proof.
  intros out_dict. apply (dict_ep_to_nparray_columns out_dict 3).
  - lia.
  - unfold in_bounds. repeat constructor; simpl; lia.
Defined.

(** X16.  [dict_ep_to_nparray] fails with a ValueError when [epoch] is
    negative.  When [epoch] is not negative, the first key in insertion
    order that lies outside [-epoch, epoch) stops the call: with an
    OverflowError when this key is an integer from 2^63 to 2^64 - 1, with
    an IndexError otherwise.  A key equal to [epoch] is already too
    large. *)
Theorem dict_ep_to_nparray_errors (out_dict : list (Z * (Q * Q * Q))) (epoch : Z) :
  ((epoch < 0)%Z → dict_ep_to_nparray out_dict epoch = Raise ValueError) ∧
  ((0 ≤ epoch)%Z →
   ∀ pre ep v rest, out_dict = pre ++ (ep, v) :: rest →
     Forall (λ it, in_bounds epoch it.1) pre → ¬ in_bounds epoch ep →
     dict_ep_to_nparray out_dict epoch =
     Raise (if decide (2 ^ 63 ≤ ep < 2 ^ 64)%Z then OverflowError else IndexError)).
Proof.
  unfold dict_ep_to_nparray. split.
  - intros He. by destruct (decide (epoch < 0)%Z).
  - intros He pre ep v rest -> Hpre Hep.
    destruct (decide (epoch < 0)%Z); [lia|].
    rewrite <- (Z2Nat.id epoch He) in Hpre, Hep.
    destruct (fill_table_columns (Z.to_nat epoch) pre Hpre) as (out & Hout & Hw & _).
    rewrite fill_table_app, Hout. cbv beta iota delta [rbind].
    by apply (fill_table_raise (Z.to_nat epoch)).
Qed.

Lemma dict_ep_to_nparray_errors_witness :
  let v : Q * Q * Q := (1%Q, 1%Q, 1%Q) in
  dict_ep_to_nparray [(2%Z, v)] (-1) = Raise ValueError ∧
  dict_ep_to_nparray [(0%Z, v); (2%Z, v); (1%Z, v)] 2 = Raise IndexError ∧
  dict_ep_to_nparray [(0%Z, v); ((2 ^ 63)%Z, v)] 2 = Raise OverflowError.
Proof.
  intros v. split; [|split].
  - apply (dict_ep_to_nparray_errors [(2%Z, v)] (-1)). lia.
  - refine (proj2 (dict_ep_to_nparray_errors [(0%Z, v); (2%Z, v); (1%Z, v)] 2) _
              [(0%Z, v)] 2%Z v [(1%Z, v)] _ _ _).
    + lia.
    + reflexivity.
    + repeat constructor; simpl; lia.
    + unfold in_bounds. lia.
  - refine (proj2 (dict_ep_to_nparray_errors [(0%Z, v); ((2 ^ 63)%Z, v)] 2) _
              [(0%Z, v)] (2 ^ 63)%Z v [] _ _ _).
    + lia.
    + reflexivity.
    + repeat constructor; simpl; lia.
    + unfold in_bounds. lia.
Defined.

Lemma no_write_absent (items : list (Z * (Q * Q * Q))) (ep : Z) :
  ep ∉ items.*1 → filter (λ it, it.1 = ep) items = [].
Proof.
  induction items as [|[ep' v'] items IH]; csimpl; intros Hnotin; [done|].
  apply not_elem_of_cons in Hnotin as [Hne Hnotin].
  rewrite filter_cons. simpl. rewrite decide_False by done. by apply IH.
Qed.

Lemma first_write_unique (items : list (Z * (Q * Q * Q))) (ep : Z) (v : Q * Q * Q) :
  NoDup items.*1 → (ep, v) ∈ items →
  filter (λ it, it.1 = ep) items = [(ep, v)].
Proof.
  induction items as [|[ep' v'] items IH]; csimpl; intros Hnd Hin.
  - by apply elem_of_nil in Hin.
  - apply NoDup_cons in Hnd as [Hnotin Hnd]. rewrite filter_cons. simpl.
    apply elem_of_cons in Hin as [[= <- <-]|Hin].
    + rewrite decide_True by done. f_equal. by apply no_write_absent.
    + rewrite decide_False; [by apply IH|].
      intros ->. apply Hnotin. apply list_elem_of_fmap. by exists (ep, v).
Qed.

Lemma filter_wrap_nonneg (items : list (Z * (Q * Q * Q))) (epoch : Z) (j : nat) :
  Forall (λ it, (0 ≤ it.1)%Z) items →
  filter (λ it, wrap_index epoch it.1 = Z.of_nat j) items =
  filter (λ it, it.1 = Z.of_nat j) items.
Proof.
  induction 1 as [|[ep v] items Hep _ IH]; [done|].
  rewrite !filter_cons, IH. simpl in *. unfold wrap_index.
  destruct (decide (ep < 0)%Z); [lia|]. done.
Qed.

(** X17.  When the keys of the dictionary are distinct epochs between 0
    and [epoch - 1], the table that [dict_ep_to_nparray] returns holds the
    triple of every item in the column of its key, and zeros in the
    columns that are not a key. *)
Theorem dict_ep_to_nparray_lookup (out_dict : list (Z * (Q * Q * Q))) (epoch : Z) :
  NoDup out_dict.*1 → Forall (λ it, (0 ≤ it.1 < epoch)%Z) out_dict →
  (0 ≤ epoch)%Z →
  ∃ out, dict_ep_to_nparray out_dict epoch = Ok out ∧
    (∀ ep v, (ep, v) ∈ out_dict → table_column out (Z.to_nat ep) = Some v) ∧
    (∀ j, j < Z.to_nat epoch → Z.of_nat j ∉ out_dict.*1 →
          table_column out j = Some (0%Q, 0%Q, 0%Q)).
Proof.
  intros Hnd Hb He. unfold dict_ep_to_nparray.
  destruct (decide (epoch < 0)%Z); [lia|].
  assert (Hb' : Forall (λ it, in_bounds (Z.of_nat (Z.to_nat epoch)) it.1) out_dict).
  { eapply Forall_impl; [exact Hb|]. unfold in_bounds. simpl. intros it Hit. lia. }
  assert (Hpos : Forall (λ it : Z * (Q * Q * Q), (0 ≤ it.1)%Z) out_dict).
  { eapply Forall_impl; [exact Hb|]. simpl. intros it Hit. lia. }
  destruct (fill_table_columns (Z.to_nat epoch) out_dict Hb') as (out & Hout & Hw & Hcol).
  exists out. split; [done|]. split.
  - intros ep v Hin.
    pose proof (proj1 (Forall_forall _ _) Hb _ Hin) as Hep. simpl in Hep.
    rewrite Hcol by lia. f_equal. unfold last_write.
    rewrite filter_wrap_nonneg by done.
    rewrite Z2Nat.id by lia. by rewrite (first_write_unique out_dict ep v).
  - intros j Hj Hnotin. rewrite Hcol by done. f_equal. unfold last_write.
    rewrite filter_wrap_nonneg by done. by rewrite no_write_absent.
Qed.

Lemma dict_ep_to_nparray_lookup_witness :
  let out_dict : list (Z * (Q * Q * Q)) :=
    [(0%Z, ((1 # 2)%Q, (1 # 3)%Q, (1 # 4)%Q)); (2%Z, (1%Q, 1%Q, 1%Q))] in
  ∃ out, dict_ep_to_nparray out_dict 3 = Ok out ∧
    (∀ ep v, (ep, v) ∈ out_dict → table_column out (Z.to_nat ep) = Some v) ∧
    (∀ j, j < Z.to_nat 3 → Z.of_nat j ∉ out_dict.*1 →
          table_column out j = Some (0%Q, 0%Q, 0%Q)).
Proof.
  intros out_dict. apply (dict_ep_to_nparray_lookup out_dict 3).
  - simpl. apply NoDup_cons. split; [|apply NoDup_singleton].
    intros H%list_elem_of_singleton. discriminate H.
  - repeat constructor; simpl; lia.
  - lia.
Defined.

(** ** [sparse_id] and [dense_id] *)

Lemma entry_sum_diagonal (a n r c : nat) :
  entry_sum (Z.of_nat <$> seq a n) (Z.of_nat <$> seq a n)
            ((λ _, 1%Z) <$> (Z.of_nat <$> seq a n)) (Z.of_nat r) (Z.of_nat c) =
  if decide (r = c ∧ a ≤ r < a + n) then 1%Z else 0%Z.
Proof.
  revert a. induction n as [|n IH]; intros a; csimpl.
  - destruct (decide _); [lia|done].
  - rewrite IH.
    destruct (decide (Z.of_nat a = Z.of_nat r ∧ Z.of_nat a = Z.of_nat c)),
             (decide (r = c ∧ S a ≤ r < S a + n)),
             (decide (r = c ∧ a ≤ r < a + S n)); lia.
Qed.

(** X18.  [dense_id n] is the identity matrix of size [n]: [n] rows of
    [n] entries, 1 on the diagonal and 0 elsewhere.  [sparse_id n] stores
    exactly the [n] diagonal positions with value 1, and densifies to
    [dense_id n]. *)
Theorem identity_matrices (n : nat) :
  length (dense_id n) = n ∧
  (∀ i j, i < n → j < n →
     dense_id n !! i ≫= (.!! j) = Some (if decide (i = j) then 1%Z else 0%Z)) ∧
  columns (sp_indices (sparse_id n)) = (λ k, (k, k)) <$> py_range n ∧
  sp_values (sparse_id n) = replicate n 1%Z ∧
  to_dense (sparse_id n) = dense_id n.
Proof.
  split; [|split; [|split; [|split]]].
  - unfold dense_id, todense, py_range. by rewrite !length_fmap, length_seq.
  - intros i j Hi Hj. unfold dense_id, todense, py_range. simpl.
    rewrite !list_lookup_fmap, lookup_seq_lt by done. simpl.
    rewrite !list_lookup_fmap, lookup_seq_lt by done. simpl.
    f_equal. rewrite entry_sum_diagonal.
    destruct (decide (i = j ∧ 0 ≤ i < 0 + n)), (decide (i = j)); try done; lia.
  - unfold sparse_id, columns, py_range. simpl.
    induction (seq 0 n) as [|k l IH]; csimpl; [done|]. by rewrite IH.
  - unfold sparse_id, py_range. simpl.
    rewrite <- (length_seq n 0) at 2.
    induction (seq 0 n) as [|k l IH]; csimpl; [done|]. by rewrite IH.
  - reflexivity.
Qed.
